(** * syscall/js callbacks: registry, pending queue and dispatcher

    A model of [src/syscall/js/callback.go] and the properties of its
    handle registry, its queue of pending callbacks and its dispatcher
    goroutine.

    The Go functions are written as programs over a small instruction
    set, one instruction per source statement that touches shared state.
    Goroutines are interleaved one instruction at a time; the JavaScript
    host interleaves calls of the functions the package handed to it. *)

From Stdlib Require Import ZArith List Lia String.
From stdpp Require Import base option list gmap.

#[local] Open Scope Z_scope.

(* ===================================================================== *)
(** ** JavaScript values and functions *)
(* ===================================================================== *)

(** The values the host passes to a callback.  [DomEvent e] is an object
    with the three suppression methods of a DOM event; the other values
    have none of them. *)
Inductive Value : Type :=
| Undefined
| Number (n : Z)
| DomEvent (e : nat).

(** An element of the JavaScript array [pendingCallbacks]:
    the object [{ id: id, args: arguments }]. *)
Record PendingCallback : Type := { cb_id : Z; cb_args : list Value }.

(** The JavaScript closures the package creates.

    [makeCallbackHelper id] is the function returned by
    [makeCallbackHelper(id, pendingCallbacks, resolveCallbackPromise)];
    [makeEventCallbackHelper a b c fn] the one returned by
    [makeEventCallbackHelper(preventDefault, stopPropagation,
    stopImmediatePropagation, fn)]. *)
Inductive JsFunc : Type :=
| makeCallbackHelper (id : Z)
| makeEventCallbackHelper
    (preventDefault stopPropagation stopImmediatePropagation : bool)
    (fn : JsFunc).

(** [type Callback struct { id uint32; enqueueFn Value }] *)
Record Callback : Type := { id : Z; enqueueFn : JsFunc }.

(** [uint32] arithmetic: values are kept in [0, 2^32). *)
Definition uint32 (z : Z) : Z := z mod 2 ^ 32.

(* ===================================================================== *)
(** ** Go code *)
(* ===================================================================== *)

(** Go code, in continuation-passing form: each constructor is one
    statement followed by the rest of the function. *)
Inductive Prog : Type :=
| Return                                   (* the function returns *)
| Panic (msg : string)                     (* a run-time panic *)
| OnceDo (f : Prog) (k : Prog)             (* callbackLoopOnce.Do(func() { f }) *)
| OnceRet (k : Prog)                       (* Do's deferred store of done *)
| GoCallbackLoop (k : Prog)                (* go callbackLoop() *)
| Go (p : Prog) (k : Prog)                 (* go func() { p }() *)
| Lock (k : Prog)                          (* callbacksMu.Lock() *)
| Unlock (k : Prog)                        (* callbacksMu.Unlock() *)
| LoadNext (k : Z -> Prog)                 (* id := nextCallbackID *)
| IncNext (k : Prog)                       (* nextCallbackID++ *)
| MapSet (i : Z) (fn : list Value -> Prog) (k : Prog)   (* callbacks[i] = fn *)
| MapDelete (i : Z) (k : Prog)             (* delete(callbacks, i) *)
| Invoke (f : JsFunc) (args : list Value) (k : Prog).   (* f.Invoke(args...) *)

(** [func(args []Value)] *)
Definition GoFunc : Type := list Value -> Prog.

(** Sequencing: [and_then p q] runs [p] and, where [p] returns, goes on
    with [q]. *)
Fixpoint and_then (p q : Prog) : Prog :=
  match p with
  | Return => q
  | Panic msg => Panic msg
  | OnceDo f k => OnceDo f (and_then k q)
  | OnceRet k => OnceRet (and_then k q)
  | GoCallbackLoop k => GoCallbackLoop (and_then k q)
  | Go p' k => Go p' (and_then k q)
  | Lock k => Lock (and_then k q)
  | Unlock k => Unlock (and_then k q)
  | LoadNext k => LoadNext (fun z => and_then (k z) q)
  | IncNext k => IncNext (and_then k q)
  | MapSet i fn k => MapSet i fn (and_then k q)
  | MapDelete i k => MapDelete i (and_then k q)
  | Invoke f args k => Invoke f args (and_then k q)
  end.

(** func NewCallback(fn func(args []Value)) Callback *)
Definition NewCallback (fn : GoFunc) (ret : Callback -> Prog) : Prog :=
  OnceDo (GoCallbackLoop Return)
  (Lock
  (LoadNext (fun id =>
   IncNext
  (MapSet id fn
  (Unlock
  (ret {| id := id; enqueueFn := makeCallbackHelper id |})))))).

(** [type EventCallbackFlag int], with the constants [1 << iota]. *)
Definition EventCallbackFlag : Type := Z.
Definition PreventDefault : EventCallbackFlag := Z.shiftl 1 0.
Definition StopPropagation : EventCallbackFlag := Z.shiftl 1 1.
Definition StopImmediatePropagation : EventCallbackFlag := Z.shiftl 1 2.

(** [flags&f != 0] *)
Definition has_flag (flags f : EventCallbackFlag) : bool :=
  negb (Z.land flags f =? 0).

(** The function literal [func(args []Value) { fn(args[0]) }]:
    indexing an empty slice panics. *)
Definition event_wrapper (fn : Value -> Prog) : GoFunc :=
  fun args =>
    match args with
    | [] => Panic "index out of range"%string
    | a0 :: _ => fn a0
    end.

(** func NewEventCallback(flags EventCallbackFlag, fn func(event Value)) Callback

    The Callback [c] passed to [makeEventCallbackHelper.Invoke] crosses
    to JavaScript as its [enqueueFn]. *)
Definition NewEventCallback (flags : EventCallbackFlag) (fn : Value -> Prog)
    (ret : Callback -> Prog) : Prog :=
  NewCallback (event_wrapper fn) (fun c =>
  ret {| id := id c;
         enqueueFn := makeEventCallbackHelper
                        (has_flag flags PreventDefault)
                        (has_flag flags StopPropagation)
                        (has_flag flags StopImmediatePropagation)
                        (enqueueFn c) |}).

(** func (c Callback) Close() *)
Definition Close (c : Callback) (ret : Prog) : Prog :=
  Lock
  (MapDelete (id c)
  (Unlock
   ret)).

(** The program points of [callbackLoop], with the locals that are live
    at each of them. *)
Inductive LoopPc : Type :=
| AtSleep                                   (* sleepUntilCallback() *)
| AtShift                                   (* cb := pendingCallbacks.Call("shift") *)
| AtLock (cb : PendingCallback) (i : Z)     (* callbacksMu.Lock() *)
| AtLookup (cb : PendingCallback) (i : Z)   (* f, ok := callbacks[id] *)
| AtUnlock (cb : PendingCallback) (i : Z) (f : option GoFunc)
                                            (* callbacksMu.Unlock() *)
| AtError                                   (* console.error(...); continue *)
| AtCall (i : Z) (f : GoFunc) (args : list Value)       (* f(args) *)
| InCall (body : Prog).                     (* inside f(args) *)

(** A goroutine: user code, or the dispatcher started by
    [go callbackLoop()]. *)
Inductive Goroutine : Type :=
| Code (p : Prog)
| CallbackLoop (pc : LoopPc).

(* ===================================================================== *)
(** ** State *)
(* ===================================================================== *)

(** What a run leaves behind, in the order it happened.  The number in
    an event is the goroutine that caused it. *)
Inductive Event : Type :=
| EvLock (g : nat)
| EvUnlock (g : nat)
| EvRegister (i : Z)                        (* callbacks[i] = fn *)
| EvPreventDefault (e : nat)
| EvStopPropagation (e : nat)
| EvStopImmediatePropagation (e : nat)
| EvPush (cb : PendingCallback)             (* pendingCallbacks.push(cb) *)
| EvShift (cb : PendingCallback)            (* pendingCallbacks.shift() = cb *)
| EvConsoleError (msg : string)
| EvCall (i : Z) (args : list Value).       (* callbacks[i] is called *)

(** Modelled from the spec: [sync.Once] is not part of the source file.
    The one-shot guard calls its function on the first [Do] only, and no
    [Do] returns before that call has returned; [OnceRunning g] is the
    guard while goroutine [g] is inside the first [Do]. *)
Inductive OnceState : Type :=
| OnceFresh
| OnceRunning (g : nat)
| OnceDone.

(** The package-level variables, the goroutines and the trace.

    Modelled from the spec: [sync.Mutex] is not part of the source file.
    [callbacksMu] is [None] when unlocked and [Some g] when locked, [g]
    being the goroutine that locked it (kept for the proofs: [Unlock]
    does not look at it).  [callbackPromise] is the wake signal between
    [resolveCallbackPromise] and [sleepUntilCallback], which the runtime
    defines. *)
Record State : Type := {
  callbacksMu : option nat;
  callbacks : gmap Z GoFunc;
  nextCallbackID : Z;
  callbackLoopOnce : OnceState;
  pendingCallbacks : list PendingCallback;
  callbackPromise : bool;
  goroutines : list Goroutine;
  trace : list Event;
}.

Definition set_callbacksMu (v : option nat) (s : State) : State :=
  {| callbacksMu := v; callbacks := callbacks s;
     nextCallbackID := nextCallbackID s;
     callbackLoopOnce := callbackLoopOnce s;
     pendingCallbacks := pendingCallbacks s;
     callbackPromise := callbackPromise s;
     goroutines := goroutines s; trace := trace s |}.

Definition set_callbacks (v : gmap Z GoFunc) (s : State) : State :=
  {| callbacksMu := callbacksMu s; callbacks := v;
     nextCallbackID := nextCallbackID s;
     callbackLoopOnce := callbackLoopOnce s;
     pendingCallbacks := pendingCallbacks s;
     callbackPromise := callbackPromise s;
     goroutines := goroutines s; trace := trace s |}.

Definition set_nextCallbackID (v : Z) (s : State) : State :=
  {| callbacksMu := callbacksMu s; callbacks := callbacks s;
     nextCallbackID := v;
     callbackLoopOnce := callbackLoopOnce s;
     pendingCallbacks := pendingCallbacks s;
     callbackPromise := callbackPromise s;
     goroutines := goroutines s; trace := trace s |}.

Definition set_callbackLoopOnce (v : OnceState) (s : State) : State :=
  {| callbacksMu := callbacksMu s; callbacks := callbacks s;
     nextCallbackID := nextCallbackID s;
     callbackLoopOnce := v;
     pendingCallbacks := pendingCallbacks s;
     callbackPromise := callbackPromise s;
     goroutines := goroutines s; trace := trace s |}.

Definition set_pendingCallbacks (v : list PendingCallback) (s : State) : State :=
  {| callbacksMu := callbacksMu s; callbacks := callbacks s;
     nextCallbackID := nextCallbackID s;
     callbackLoopOnce := callbackLoopOnce s;
     pendingCallbacks := v;
     callbackPromise := callbackPromise s;
     goroutines := goroutines s; trace := trace s |}.

Definition set_callbackPromise (v : bool) (s : State) : State :=
  {| callbacksMu := callbacksMu s; callbacks := callbacks s;
     nextCallbackID := nextCallbackID s;
     callbackLoopOnce := callbackLoopOnce s;
     pendingCallbacks := pendingCallbacks s;
     callbackPromise := v;
     goroutines := goroutines s; trace := trace s |}.

Definition set_goroutines (v : list Goroutine) (s : State) : State :=
  {| callbacksMu := callbacksMu s; callbacks := callbacks s;
     nextCallbackID := nextCallbackID s;
     callbackLoopOnce := callbackLoopOnce s;
     pendingCallbacks := pendingCallbacks s;
     callbackPromise := callbackPromise s;
     goroutines := v; trace := trace s |}.

Definition emit (e : Event) (s : State) : State :=
  {| callbacksMu := callbacksMu s; callbacks := callbacks s;
     nextCallbackID := nextCallbackID s;
     callbackLoopOnce := callbackLoopOnce s;
     pendingCallbacks := pendingCallbacks s;
     callbackPromise := callbackPromise s;
     goroutines := goroutines s; trace := trace s ++ [e] |}.

Definition spawn (g : Goroutine) (s : State) : State :=
  set_goroutines (goroutines s ++ [g]) s.

(** The package-level initialisers:
    [pendingCallbacks = Array.New()], [callbacks = make(map...)],
    [nextCallbackID uint32 = 1].  [mains] are the goroutines of the
    program that uses the package. *)
Definition init (mains : list Prog) : State :=
  {| callbacksMu := None; callbacks := ∅; nextCallbackID := 1;
     callbackLoopOnce := OnceFresh; pendingCallbacks := [];
     callbackPromise := false;
     goroutines := Code <$> mains; trace := [] |}.

(* ===================================================================== *)
(** ** Semantics *)
(* ===================================================================== *)

(** The outcome of a JavaScript call: it returns or it throws. *)
Inductive JsResult : Type :=
| JsOk (s : State)
| JsThrow (s : State).

Definition js_bind (r : JsResult) (k : State -> JsResult) : JsResult :=
  match r with
  | JsOk s => k s
  | JsThrow s => JsThrow s
  end.

(** [event.m()]: a value without the method throws a TypeError. *)
Definition js_method (m : nat -> Event) (event : Value) (s : State) : JsResult :=
  match event with
  | DomEvent e => JsOk (emit (m e) s)
  | _ => JsThrow s
  end.

(** Calling one of the package's JavaScript closures with [arguments]. *)
Fixpoint js_call (f : JsFunc) (arguments : list Value) (s : State) : JsResult :=
  match f with
  | makeCallbackHelper id =>
      (* pendingCallbacks.push({ id: id, args: arguments });
         resolveCallbackPromise(); *)
      let cb := {| cb_id := id; cb_args := arguments |} in
      JsOk (set_callbackPromise true
           (emit (EvPush cb)
           (set_pendingCallbacks (pendingCallbacks s ++ [cb]) s)))
  | makeEventCallbackHelper preventDefault stopPropagation
                            stopImmediatePropagation fn =>
      (* function(event) { ... } *)
      let event := hd Undefined arguments in
      js_bind (if preventDefault
               then js_method EvPreventDefault event s else JsOk s) (fun s =>
      js_bind (if stopPropagation
               then js_method EvStopPropagation event s else JsOk s) (fun s =>
      js_bind (if stopImmediatePropagation
               then js_method EvStopImmediatePropagation event s else JsOk s) (fun s =>
      js_call fn [event] s)))
  end.

(** One statement of Go code, run by goroutine [g]: the rest of the code
    and the new state, or [None] when [g] cannot move (it is blocked, or
    its code has ended). *)
Definition exec (g : nat) (p : Prog) (s : State) : option (Prog * State) :=
  match p with
  | Return => None
  | Panic _ => None
  | OnceDo f k =>
      match callbackLoopOnce s with
      | OnceFresh =>
          Some (and_then f (OnceRet k), set_callbackLoopOnce (OnceRunning g) s)
      | OnceRunning _ => None
      | OnceDone => Some (k, s)
      end
  | OnceRet k => Some (k, set_callbackLoopOnce OnceDone s)
  | GoCallbackLoop k => Some (k, spawn (CallbackLoop AtSleep) s)
  | Go p' k => Some (k, spawn (Code p') s)
  | Lock k =>
      match callbacksMu s with
      | None => Some (k, emit (EvLock g) (set_callbacksMu (Some g) s))
      | Some _ => None
      end
  | Unlock k => Some (k, emit (EvUnlock g) (set_callbacksMu None s))
  | LoadNext k => Some (k (nextCallbackID s), s)
  | IncNext k =>
      Some (k, set_nextCallbackID (uint32 (nextCallbackID s + 1)) s)
  | MapSet i fn k =>
      Some (k, emit (EvRegister i) (set_callbacks (<[i := fn]> (callbacks s)) s))
  | MapDelete i k => Some (k, set_callbacks (delete i (callbacks s)) s)
  | Invoke f args k =>
      match js_call f args s with
      | JsOk s' => Some (k, s')
      | JsThrow s' => Some (Panic "JavaScript error"%string, s')
      end
  end.

(** The loop that copies the JavaScript [arguments] object into a slice:
    [args := make([]Value, argsObj.Length());
     for i := range args { args[i] = argsObj.Index(i) }] *)
Definition copy_args (argsObj : list Value) : list Value :=
  map (fun i => nth i argsObj Undefined) (List.seq 0 (length argsObj)).

(** func callbackLoop(), one statement at a time, run by goroutine [g]. *)
Definition callbackLoop (g : nat) (pc : LoopPc) (s : State)
    : option (LoopPc * State) :=
  match pc with
  | AtSleep =>
      (* sleepUntilCallback(), then the inner loop is entered *)
      if callbackPromise s
      then Some (AtShift, set_callbackPromise false s)
      else None
  | AtShift =>
      match pendingCallbacks s with
      | [] => Some (AtSleep, s)               (* cb == Undefined: break *)
      | cb :: rest =>
          (* id := uint32(cb.Get("id").Int()) *)
          Some (AtLock cb (uint32 (cb_id cb)),
                emit (EvShift cb) (set_pendingCallbacks rest s))
      end
  | AtLock cb i =>
      match callbacksMu s with
      | None => Some (AtLookup cb i, emit (EvLock g) (set_callbacksMu (Some g) s))
      | Some _ => None
      end
  | AtLookup cb i => Some (AtUnlock cb i (callbacks s !! i), s)
  | AtUnlock cb i f =>
      let s' := emit (EvUnlock g) (set_callbacksMu None s) in
      match f with
      | None => Some (AtError, s')            (* if !ok *)
      | Some f => Some (AtCall i f (copy_args (cb_args cb)), s')
      end
  | AtError =>
      Some (AtShift, emit (EvConsoleError "call to closed callback"%string) s)
  | AtCall i f args => Some (InCall (f args), emit (EvCall i args) s)
  | InCall Return => Some (AtShift, s)        (* f returned: next iteration *)
  | InCall body =>
      match exec g body s with
      | Some (body', s') => Some (InCall body', s')
      | None => None
      end
  end.

(** Goroutine [g] runs one statement, if it can. *)
Definition step (g : nat) (s : State) : State :=
  match goroutines s !! g with
  | Some (Code p) =>
      match exec g p s with
      | Some (p', s') => set_goroutines (<[g := Code p']> (goroutines s')) s'
      | None => s
      end
  | Some (CallbackLoop pc) =>
      match callbackLoop g pc s with
      | Some (pc', s') =>
          set_goroutines (<[g := CallbackLoop pc']> (goroutines s')) s'
      | None => s
      end
  | None => s
  end.

(** What can happen next: a goroutine is scheduled for one statement,
    or the host calls one of the package's JavaScript closures. *)
Inductive Action : Type :=
| Sched (g : nat)
| HostCall (f : JsFunc) (args : list Value).

Definition js_state (r : JsResult) : State :=
  match r with
  | JsOk s => s
  | JsThrow s => s
  end.

Definition act (s : State) (a : Action) : State :=
  match a with
  | Sched g => step g s
  | HostCall f args => js_state (js_call f args s)
  end.

Definition run (schedule : list Action) (s : State) : State :=
  fold_left act schedule s.

(** Goroutine [g] alone runs [n] statements. *)
Definition run_solo (g : nat) (n : nat) (s : State) : State :=
  Nat.iter n (step g) s.

(* ===================================================================== *)
(** ** Reading a trace *)
(* ===================================================================== *)

(** The records pushed on the queue, in order. *)
Definition pushed (tr : list Event) : list PendingCallback :=
  omap (fun e => match e with EvPush cb => Some cb | _ => None end) tr.

(** The records the dispatcher took off the queue, in order. *)
Definition shifted (tr : list Event) : list PendingCallback :=
  omap (fun e => match e with EvShift cb => Some cb | _ => None end) tr.

(** What the dispatcher did with a record: it called the function
    registered under handle [i] with [args], or it reported a closed
    callback. *)
Inductive Outcome : Type :=
| Delivered (i : Z) (args : list Value)
| Dropped.

Definition outcomes (tr : list Event) : list Outcome :=
  omap (fun e => match e with
                 | EvCall i args => Some (Delivered i args)
                 | EvConsoleError _ => Some Dropped
                 | _ => None
                 end) tr.

(** The handles the registry gave out, in order. *)
Definition registered (tr : list Event) : list Z :=
  omap (fun e => match e with EvRegister i => Some i | _ => None end) tr.

(** The suppression methods called on event objects, in order. *)
Definition suppressed (tr : list Event) : list Event :=
  omap (fun e => match e with
                 | EvPreventDefault _ | EvStopPropagation _
                 | EvStopImmediatePropagation _ => Some e
                 | _ => None
                 end) tr.

(** The outcome that fits a record: the call of the function under the
    record's handle with the record's arguments, or the diagnostic. *)
Definition outcome_of (cb : PendingCallback) (o : Outcome) : Prop :=
  o = Delivered (uint32 (cb_id cb)) (cb_args cb) \/ o = Dropped.

(** The first [n] handles of a counter that starts at 1. *)
Definition handles (n : nat) : list Z :=
  map (fun k => uint32 (1 + Z.of_nat k)) (List.seq 0 n).

Definition is_loop (gr : Goroutine) : bool :=
  match gr with
  | CallbackLoop _ => true
  | Code _ => false
  end.

(** The number of goroutines that run [callbackLoop]. *)
Definition dispatchers (gs : list Goroutine) : nat :=
  length (List.filter is_loop gs).

(* ===================================================================== *)
(** ** Client code and the reachable states *)
(* ===================================================================== *)

(** Code of a client of the package: it reaches the package's state
    through the exported functions only. *)
Inductive user_code : Prog -> Prop :=
| uc_return : user_code Return
| uc_panic msg : user_code (Panic msg)
| uc_go p k : user_code p -> user_code k -> user_code (Go p k)
| uc_invoke f args k : user_code k -> user_code (Invoke f args k)
| uc_new fn ret :
    (forall args, user_code (fn args)) ->
    (forall c, user_code (ret c)) ->
    user_code (NewCallback fn ret)
| uc_close c ret : user_code ret -> user_code (Close c ret).

(** The states a program of client goroutines can reach. *)
Definition reachable (s : State) : Prop :=
  exists mains schedule,
    Forall user_code mains /\ s = run schedule (init mains).

(** Where a goroutine stands with respect to the guard and the mutex. *)
Inductive Pc : Type :=
| PIdle                      (* outside both *)
| POnce (started : bool)     (* inside the first Do *)
| PEnter                     (* in NewCallback, past Do, before Lock *)
| PLoad                      (* mutex held, before id := nextCallbackID *)
| PInc (i : Z)               (* mutex held, before nextCallbackID++ *)
| PSet (i : Z)               (* mutex held, before callbacks[id] = fn *)
| PHold.                     (* mutex held, counter and table in step *)

(** The code a goroutine can be left with, statement by statement. *)
Inductive at_pc : Pc -> Prog -> Prop :=
| at_user p : user_code p -> at_pc PIdle p
| at_once_go fn ret :
    (forall args, user_code (fn args)) ->
    (forall c, user_code (ret c)) ->
    at_pc (POnce false)
      (GoCallbackLoop (OnceRet (Lock (LoadNext (fun id => IncNext
         (MapSet id fn (Unlock
            (ret {| id := id; enqueueFn := makeCallbackHelper id |}))))))))
| at_once_ret fn ret :
    (forall args, user_code (fn args)) ->
    (forall c, user_code (ret c)) ->
    at_pc (POnce true)
      (OnceRet (Lock (LoadNext (fun id => IncNext
         (MapSet id fn (Unlock
            (ret {| id := id; enqueueFn := makeCallbackHelper id |})))))))
| at_new_lock fn ret :
    (forall args, user_code (fn args)) ->
    (forall c, user_code (ret c)) ->
    at_pc PEnter
      (Lock (LoadNext (fun id => IncNext
         (MapSet id fn (Unlock
            (ret {| id := id; enqueueFn := makeCallbackHelper id |}))))))
| at_new_load fn ret :
    (forall args, user_code (fn args)) ->
    (forall c, user_code (ret c)) ->
    at_pc PLoad
      (LoadNext (fun id => IncNext
         (MapSet id fn (Unlock
            (ret {| id := id; enqueueFn := makeCallbackHelper id |})))))
| at_new_inc i fn ret :
    (forall args, user_code (fn args)) ->
    (forall c, user_code (ret c)) ->
    at_pc (PInc i)
      (IncNext (MapSet i fn (Unlock
         (ret {| id := i; enqueueFn := makeCallbackHelper i |}))))
| at_new_set i fn ret :
    (forall args, user_code (fn args)) ->
    (forall c, user_code (ret c)) ->
    at_pc (PSet i)
      (MapSet i fn (Unlock
         (ret {| id := i; enqueueFn := makeCallbackHelper i |})))
| at_close_delete i k :
    user_code k -> at_pc PHold (MapDelete i (Unlock k))
| at_unlock k :
    user_code k -> at_pc PHold (Unlock k).

Section Invariant.
Variable s : State.

(** The counter is [d] ahead of the handles given out. *)
Definition next_ok (d : Z) : Prop :=
  nextCallbackID s
  = uint32 (1 + Z.of_nat (length (registered (trace s))) + d).

Definition pc_ok (g : nat) (pc : Pc) : Prop :=
  match pc with
  | PIdle =>
      callbacksMu s <> Some g /\ callbackLoopOnce s <> OnceRunning g
  | POnce started =>
      callbacksMu s <> Some g /\ callbackLoopOnce s = OnceRunning g
      /\ dispatchers (goroutines s) = (if started then 1 else 0)%nat
  | PEnter =>
      callbacksMu s <> Some g /\ callbackLoopOnce s = OnceDone
  | PLoad =>
      callbacksMu s = Some g /\ callbackLoopOnce s = OnceDone
      /\ next_ok 0
  | PHold =>
      callbacksMu s = Some g /\ callbackLoopOnce s <> OnceRunning g
      /\ next_ok 0
  | PInc i =>
      callbacksMu s = Some g /\ callbackLoopOnce s = OnceDone
      /\ next_ok 0 /\ i = nextCallbackID s
  | PSet i =>
      callbacksMu s = Some g /\ callbackLoopOnce s = OnceDone
      /\ next_ok 1
      /\ i = uint32 (1 + Z.of_nat (length (registered (trace s))))
  end.

(** Every record taken off the queue has its outcome, in order. *)
Definition settled : Prop :=
  Forall2 outcome_of (shifted (trace s)) (outcomes (trace s)).

(** The same, but for the last record taken, [cb], which is still
    in the dispatcher's hands. *)
Definition in_flight (cb : PendingCallback) : Prop :=
  exists done,
    shifted (trace s) = done ++ [cb]
    /\ Forall2 outcome_of done (outcomes (trace s)).

Definition loop_ok (g : nat) (pc : LoopPc) : Prop :=
  match pc with
  | AtSleep | AtShift =>
      callbacksMu s <> Some g /\ callbackLoopOnce s <> OnceRunning g
      /\ settled
  | AtLock cb i =>
      callbacksMu s <> Some g /\ callbackLoopOnce s <> OnceRunning g
      /\ in_flight cb /\ i = uint32 (cb_id cb)
  | AtLookup cb i =>
      callbacksMu s = Some g /\ callbackLoopOnce s <> OnceRunning g
      /\ next_ok 0 /\ in_flight cb /\ i = uint32 (cb_id cb)
  | AtUnlock cb i f =>
      callbacksMu s = Some g /\ callbackLoopOnce s <> OnceRunning g
      /\ next_ok 0 /\ in_flight cb /\ i = uint32 (cb_id cb)
      /\ (forall fn, f = Some fn -> forall args, user_code (fn args))
  | AtError =>
      callbacksMu s <> Some g /\ callbackLoopOnce s <> OnceRunning g
      /\ exists cb, in_flight cb
  | AtCall i f args =>
      callbacksMu s <> Some g /\ callbackLoopOnce s <> OnceRunning g
      /\ (exists cb, in_flight cb /\ i = uint32 (cb_id cb)
                     /\ args = cb_args cb)
      /\ forall args', user_code (f args')
  | InCall body =>
      settled /\ exists pc, at_pc pc body /\ pc_ok g pc
  end.

Definition good (g : nat) (gr : Goroutine) : Prop :=
  match gr with
  | Code p => exists pc, at_pc pc p /\ pc_ok g pc
  | CallbackLoop pc => loop_ok g pc
  end.

(** What holds of the shared variables in every reachable state. *)
Record Glob : Prop := {
  inv_mu_free : callbacksMu s = None -> next_ok 0;
  inv_mu_held : forall g, callbacksMu s = Some g ->
                          (g < length (goroutines s))%nat;
  inv_once_held : forall g, callbackLoopOnce s = OnceRunning g ->
                            (g < length (goroutines s))%nat;
  inv_once_fresh : callbackLoopOnce s = OnceFresh ->
                   dispatchers (goroutines s) = 0%nat;
  inv_once_done : callbackLoopOnce s = OnceDone ->
                  dispatchers (goroutines s) = 1%nat;
  inv_registered : registered (trace s) <> [] ->
                   callbackLoopOnce s = OnceDone;
  inv_no_loop : dispatchers (goroutines s) = 0%nat ->
                shifted (trace s) = [] /\ outcomes (trace s) = [];
  inv_queue : pushed (trace s) = shifted (trace s) ++ pendingCallbacks s;
  inv_handles : registered (trace s)
                = handles (length (registered (trace s)));
  inv_fns : forall i fn, callbacks s !! i = Some fn ->
                         forall args, user_code (fn args);
}.

(** What holds in every reachable state. *)
Definition Inv : Prop :=
  Glob /\ forall g gr, goroutines s !! g = Some gr -> good g gr.
End Invariant.

(** What a step of another goroutine leaves alone, seen from [g]. *)
Record frame (g : nat) (s s' : State) : Prop := {
  fr_mu : callbacksMu s' = Some g <-> callbacksMu s = Some g;
  fr_once : callbackLoopOnce s' = OnceRunning g
            <-> callbackLoopOnce s = OnceRunning g;
  fr_done : callbackLoopOnce s = OnceDone -> callbackLoopOnce s' = OnceDone;
  fr_next : callbacksMu s = Some g ->
            nextCallbackID s' = nextCallbackID s
            /\ registered (trace s') = registered (trace s);
  fr_loops : callbackLoopOnce s = OnceRunning g ->
             dispatchers (goroutines s') = dispatchers (goroutines s);
}.

(* ===================================================================== *)
(** ** The invariant is kept by every step *)
(* ===================================================================== *)


Lemma copy_args_eq (l : list Value) : copy_args l = l.
Proof.
  unfold copy_args. apply nth_ext with (d := Undefined) (d' := Undefined).
  - by rewrite length_map, length_seq.
  - intros n Hn. rewrite length_map, length_seq in Hn.
    rewrite (nth_indep _ _ (nth 0 l Undefined)) by (by rewrite length_map, length_seq).
    change (nth 0 l Undefined) with ((fun i => nth i l Undefined) 0%nat).
    rewrite map_nth. by rewrite seq_nth.
Qed.

Lemma dispatchers_app gs gs' :
  dispatchers (gs ++ gs') = (dispatchers gs + dispatchers gs')%nat.
Proof. unfold dispatchers. by rewrite List.filter_app, length_app. Qed.

Lemma dispatchers_insert gs g x y :
  gs !! g = Some y -> is_loop x = is_loop y ->
  dispatchers (<[g := x]> gs) = dispatchers gs.
Proof.
  revert g. induction gs as [|a gs IH]; intros [|g] Hl He; simpl in *; try done.
  - injection Hl as ->. unfold dispatchers. simpl. rewrite He.
    by destruct (is_loop y).
  - specialize (IH _ Hl He). unfold dispatchers in *. simpl.
    destruct (is_loop a); simpl; by rewrite IH.
Qed.

Lemma dispatchers_lookup gs g pc :
  gs !! g = Some (CallbackLoop pc) -> (1 <= dispatchers gs)%nat.
Proof.
  revert g. induction gs as [|a gs IH]; intros [|g] Hl; simpl in *; try done.
  - injection Hl as ->. unfold dispatchers. simpl. lia.
  - unfold dispatchers in *. simpl. specialize (IH _ Hl). destruct (is_loop a); simpl; lia.
Qed.

Lemma dispatchers_lookup2 gs g g' pc pc' :
  g <> g' ->
  gs !! g = Some (CallbackLoop pc) -> gs !! g' = Some (CallbackLoop pc') ->
  (2 <= dispatchers gs)%nat.
Proof.
  revert g g'. induction gs as [|a gs IH]; intros [|g] [|g'] Hne Hl Hl'; simpl in *; try done.
  - injection Hl as ->. apply dispatchers_lookup in Hl'. unfold dispatchers in *. simpl. lia.
  - injection Hl' as ->. apply dispatchers_lookup in Hl. unfold dispatchers in *. simpl. lia.
  - assert (g <> g') by congruence. specialize (IH _ _ H Hl Hl').
    unfold dispatchers in *. simpl. destruct (is_loop a); simpl; lia.
Qed.

Lemma pc_ok_frame s s' g pc : frame g s s' -> pc_ok s g pc -> pc_ok s' g pc.
Proof.
  intros [Hmu Honce Hdone Hnext Hloops].
  destruct pc; simpl; unfold next_ok; rewrite ?Hmu, ?Honce;
    intros H; destruct_and?;
    try (rewrite Hdone by done);
    try (destruct Hnext as [-> ->]; [done|]);
    try (rewrite Hloops by done);
    done.
Qed.

Lemma loop_ok_frame s s' g pc :
  frame g s s' ->
  shifted (trace s') = shifted (trace s) ->
  outcomes (trace s') = outcomes (trace s) ->
  loop_ok s g pc -> loop_ok s' g pc.
Proof.
  intros Hf Hs Ho. pose proof Hf as [Hmu Honce Hdone Hnext Hloops].
  destruct pc; simpl; unfold settled, in_flight, next_ok;
    rewrite ?Hmu, ?Honce, ?Hs, ?Ho;
    intros H; destruct_and?;
    try (destruct Hnext as [-> ->]; [done|]);
    try done.
  split; [done|].
  match goal with H : ex _ |- _ => destruct H as (pc & Hat & Hok) end.
  exists pc. split; [done|]. by apply (pc_ok_frame s).
Qed.

Lemma good_frame s s' g gr :
  frame g s s' ->
  (is_loop gr = true ->
   shifted (trace s') = shifted (trace s)
   /\ outcomes (trace s') = outcomes (trace s)) ->
  good s g gr -> good s' g gr.
Proof.
  intros Hf Hl. destruct gr as [p|pc]; simpl.
  - intros (pc & Hat & Hok). exists pc. split; [done|]. by apply (pc_ok_frame s).
  - destruct Hl as [Hs Ho]; [done|]. by apply loop_ok_frame.
Qed.

(** What a JavaScript call can do to the state: it appends records to
    the queue, may resolve the promise, and nothing else. *)
Record js_effect (s s' : State) : Prop := {
  je_mu : callbacksMu s' = callbacksMu s;
  je_callbacks : callbacks s' = callbacks s;
  je_next : nextCallbackID s' = nextCallbackID s;
  je_once : callbackLoopOnce s' = callbackLoopOnce s;
  je_goroutines : goroutines s' = goroutines s;
  je_trace : exists evs,
      trace s' = trace s ++ evs
      /\ pendingCallbacks s' = pendingCallbacks s ++ pushed evs
      /\ shifted evs = [] /\ outcomes evs = [] /\ registered evs = [];
}.

Lemma js_effect_refl s : js_effect s s.
Proof.
  split; try done. exists []. by rewrite !app_nil_r.
Qed.

Lemma js_effect_trans s1 s2 s3 :
  js_effect s1 s2 -> js_effect s2 s3 -> js_effect s1 s3.
Proof.
  intros [? ? ? ? ? (e1 & Ht1 & Hp1 & Hs1 & Ho1 & Hr1)]
         [? ? ? ? ? (e2 & Ht2 & Hp2 & Hs2 & Ho2 & Hr2)].
  split; try congruence.
  exists (e1 ++ e2). unfold pushed, shifted, outcomes, registered in *.
  rewrite !omap_app, Hs1, Hs2, Ho1, Ho2, Hr1, Hr2, Ht2, Ht1, Hp2, Hp1.
  by rewrite !app_assoc.
Qed.

Lemma js_method_effect m event s :
  (forall e, pushed [m e] = [] /\ shifted [m e] = [] /\ outcomes [m e] = []
             /\ registered [m e] = []) ->
  js_effect s (js_state (js_method m event s)).
Proof.
  intros Hm. destruct event as [| |e]; simpl; try apply js_effect_refl.
  split; try done. exists [m e]. destruct (Hm e) as (-> & ? & ? & ?).
  by rewrite app_nil_r.
Qed.

Lemma js_bind_effect s r k :
  js_effect s (js_state r) ->
  (forall s', js_effect s' (js_state (k s'))) ->
  js_effect s (js_state (js_bind r k)).
Proof.
  intros Hr Hk. destruct r as [s1|s1]; simpl in *; [|done].
  by eapply js_effect_trans.
Qed.

Lemma js_call_effect f args s : js_effect s (js_state (js_call f args s)).
Proof.
  revert args s. induction f as [i|a b c fn IH]; intros args s; simpl.
  - split; try done. exists [EvPush {| cb_id := i; cb_args := args |}]. done.
  - apply js_bind_effect; [|intros s1; apply js_bind_effect;
                                [|intros s2; apply js_bind_effect;
                                  [|intros s3; apply IH]]].
    + destruct a; [by apply js_method_effect | apply js_effect_refl].
    + destruct b; [by apply js_method_effect | apply js_effect_refl].
    + destruct c; [by apply js_method_effect | apply js_effect_refl].
Qed.

Lemma handles_S n : handles (S n) = handles n ++ [uint32 (1 + Z.of_nat n)].
Proof. unfold handles. by rewrite seq_S, map_app. Qed.

Lemma uint32_succ z : uint32 (uint32 z + 1) = uint32 (z + 1).
Proof. unfold uint32. by rewrite Zplus_mod_idemp_l. Qed.

Lemma next_inc z n :
  z = uint32 (1 + n + 0) -> uint32 (z + 1) = uint32 (1 + n + 1).
Proof. intros ->. rewrite uint32_succ. f_equal. lia. Qed.

Lemma next_plain z n : z = uint32 (1 + n + 0) -> z = uint32 (1 + n).
Proof. intros ->. f_equal. lia. Qed.

Lemma user_code_at p : user_code p -> at_pc PIdle p.
Proof. apply at_user. Qed.

Lemma frame_same g s s' :
  callbacksMu s' = callbacksMu s ->
  callbackLoopOnce s' = callbackLoopOnce s ->
  nextCallbackID s' = nextCallbackID s ->
  registered (trace s') = registered (trace s) ->
  dispatchers (goroutines s') = dispatchers (goroutines s) ->
  frame g s s'.
Proof. intros ? ? ? ? ?. split; intros; try split; congruence. Qed.

Lemma pushed_app tr tr' : pushed (tr ++ tr') = pushed tr ++ pushed tr'.
Proof. apply omap_app. Qed.
Lemma shifted_app tr tr' : shifted (tr ++ tr') = shifted tr ++ shifted tr'.
Proof. apply omap_app. Qed.
Lemma outcomes_app tr tr' : outcomes (tr ++ tr') = outcomes tr ++ outcomes tr'.
Proof. apply omap_app. Qed.
Lemma registered_app tr tr' :
  registered (tr ++ tr') = registered tr ++ registered tr'.
Proof. apply omap_app. Qed.

Ltac eval_reader f :=
  repeat match goal with
  | |- context [f [?e]] =>
      let r := eval cbv in (f [e]) in change (f [e]) with r
  | H : context [f [?e]] |- _ =>
      let r := eval cbv in (f [e]) in change (f [e]) with r in H
  end.

Ltac state_simpl :=
  unfold next_ok, settled, in_flight in *;
  cbn [callbacksMu callbacks nextCallbackID callbackLoopOnce pendingCallbacks
       callbackPromise goroutines trace spawn emit set_callbacksMu
       set_callbacks set_nextCallbackID set_callbackLoopOnce
       set_pendingCallbacks set_callbackPromise set_goroutines] in *;
  rewrite ?pushed_app, ?shifted_app, ?outcomes_app, ?registered_app in *;
  eval_reader pushed; eval_reader shifted; eval_reader outcomes;
  eval_reader registered;
  rewrite ?app_nil_r in *.

Lemma dispatchers_one gr :
  dispatchers [gr] = if is_loop gr then 1%nat else 0%nat.
Proof. unfold dispatchers. simpl. by destruct (is_loop gr). Qed.

Ltac use_eqs :=
  repeat match goal with
  | H : callbackLoopOnce ?s = _ |- _ => progress (rewrite H in * )
  | H : callbacksMu ?s = _ |- _ => progress (rewrite H in * )
  end.

Ltac sat :=
  repeat match goal with
  | H : _ /\ _ |- _ => destruct H
  | H : Some _ = None -> _ |- _ => clear H
  | H : None = Some _ -> _ |- _ => clear H
  | H : forall x, Some ?a = Some x -> _ |- _ => specialize (H a eq_refl)
  | H : forall x, OnceRunning ?a = OnceRunning x -> _ |- _ =>
      specialize (H a eq_refl)
  | H : forall x, ?f = Some x -> _, H' : ?f = Some ?a |- _ =>
      specialize (H a H')
  | H : forall x, ?f = OnceRunning x -> _, H' : ?f = OnceRunning ?a |- _ =>
      specialize (H a H')
  | H : ?P -> _, H' : ?P |- _ =>
      match type of P with Prop => specialize (H H') end
  | H : ?x = ?y -> _ |- _ =>
      let E := fresh in
      assert (x = y) as E by (reflexivity || congruence || lia);
      specialize (H E); clear E
  | H : ?x <> ?y -> _ |- _ =>
      let E := fresh in
      assert (x <> y) as E by (congruence || lia);
      specialize (H E); clear E
  end.

Ltac fin_goal :=
  first
    [ done | lia | congruence
    | match goal with
      | |- _ /\ _ => split; fin_goal
      | |- _ <-> _ => split; intros ?; simplify_eq; sat; fin_goal
      | |- _ <> _ => intros ?; simplify_eq; sat; fin_goal
      | |- _ -> _ => intros ?; simplify_eq; sat; fin_goal
      | |- ex _ => eexists; fin_goal
      | |- _ => solve [eauto]
      end ].

Ltac fin :=
  rewrite ?length_app, ?dispatchers_app, ?dispatchers_one in *;
  cbn [length is_loop] in *;
  intros; simplify_eq; use_eqs; sat; try done; try lia;
  try (solve [fin_goal]).

Ltac use_glob G :=
  pose proof (inv_mu_free _ G) as Gfree;
  pose proof (inv_mu_held _ G) as Gheld;
  pose proof (inv_once_held _ G) as Gonce;
  pose proof (inv_once_fresh _ G) as Gfresh;
  pose proof (inv_once_done _ G) as Gdone;
  pose proof (inv_registered _ G) as Greg;
  pose proof (inv_no_loop _ G) as Gnoloop;
  pose proof (inv_queue _ G) as Gqueue;
  pose proof (inv_handles _ G) as Ghandles;
  pose proof (inv_fns _ G) as Gfns.

Lemma js_effect_readers s s' :
  js_effect s s' ->
  shifted (trace s') = shifted (trace s)
  /\ outcomes (trace s') = outcomes (trace s)
  /\ registered (trace s') = registered (trace s).
Proof.
  intros [_ _ _ _ _ (evs & -> & _ & Hs & Ho & Hr)].
  rewrite shifted_app, outcomes_app, registered_app, Hs, Ho, Hr.
  by rewrite !app_nil_r.
Qed.

Lemma js_effect_frame g s s' : js_effect s s' -> frame g s s'.
Proof.
  intros H. destruct (js_effect_readers _ _ H) as (_ & _ & Hr).
  destruct H. by apply frame_same; try congruence.
Qed.

Lemma js_effect_glob s s' : js_effect s s' -> Glob s -> Glob s'.
Proof.
  intros H G. destruct (js_effect_readers _ _ H) as (Hs & Ho & Hr).
  destruct H as [Hmu Hcb Hn Honce Hgs (evs & Ht & Hq & _)].
  pose proof (inv_queue _ G) as Hqueue.
  destruct G; constructor; unfold next_ok in *;
    rewrite ?Hmu, ?Hcb, ?Hn, ?Honce, ?Hgs, ?Hs, ?Ho, ?Hr; try done.
  rewrite Ht, Hq, pushed_app, Hqueue. by rewrite app_assoc.
Qed.

Ltac step_case G pc' atlem :=
  use_glob G; clear G;
  match goal with H : pc_ok _ _ _ |- _ => simpl in H; destruct_and? end;
  split_and!;
  [ constructor; state_simpl; fin
  | exists pc'; split; [atlem | simpl in *; state_simpl; fin]
  | intros g' Hne; split; state_simpl; fin
  | state_simpl; fin
  | state_simpl; fin
  | left; fin ].

Lemma exec_inv s g p pc p' s' :
  Glob s -> (g < length (goroutines s))%nat ->
  at_pc pc p -> pc_ok s g pc ->
  exec g p s = Some (p', s') ->
  Glob s'
  /\ (exists pc', at_pc pc' p' /\ pc_ok s' g pc')
  /\ (forall g', g' <> g -> frame g' s s')
  /\ shifted (trace s') = shifted (trace s)
  /\ outcomes (trace s') = outcomes (trace s)
  /\ (goroutines s' = goroutines s
      \/ exists gr, goroutines s' = goroutines s ++ [gr]
                    /\ good s' (length (goroutines s)) gr).
Proof.
  intros G Hg Hat Hok He.
  destruct Hat as [p Hu|fn ret Hfn Hret|fn ret Hfn Hret|fn ret Hfn Hret
                  |fn ret Hfn Hret|i fn ret Hfn Hret|i fn ret Hfn Hret
                  |i k Hk|k Hk].
  - destruct Hu as [|msg|p k Hp Hk|f args k Hk|fn ret Hfn Hret|c ret Hret].
    + done.
    + done.
    + simpl in He. injection He as <- <-.
      split_and!.
      * use_glob G. constructor; state_simpl; fin.
      * exists PIdle. split; [by apply at_user|]. simpl in *. state_simpl. fin.
      * intros g' Hne. apply frame_same; state_simpl; fin.
      * done.
      * done.
      * right. exists (Code p). split; [done|]. exists PIdle.
        split; [by apply at_user|]. simpl in *; state_simpl.
        split; intros E.
        -- apply (inv_mu_held _ G) in E. lia.
        -- apply (inv_once_held _ G) in E. lia.
    + assert (Hje := js_call_effect f args s).
      assert (s' = js_state (js_call f args s)
              /\ (p' = k \/ exists m, p' = Panic m)) as [-> Hp'].
      { simpl in He. destruct (js_call f args s); injection He as <- <-; eauto. }
      destruct (js_effect_readers _ _ Hje) as (Hs & Ho & Hr).
      split_and!.
      * by apply (js_effect_glob s).
      * exists PIdle. split.
        -- destruct Hp' as [->|[m ->]]; apply at_user; [done|constructor].
        -- by apply (pc_ok_frame s); [apply js_effect_frame|].
      * intros g' _. by apply js_effect_frame.
      * done.
      * done.
      * left. by destruct Hje.
    + unfold NewCallback in He. simpl in He.
      destruct (callbackLoopOnce s) eqn:E; simplify_eq.
      * step_case G (POnce false) ltac:(by apply at_once_go).
      * step_case G PEnter ltac:(by apply at_new_lock).
    + unfold Close in He. simpl in He.
      destruct (callbacksMu s) eqn:E; simplify_eq.
      step_case G PHold ltac:(by apply at_close_delete).
  - simpl in He. simplify_eq.
    use_glob G.
    split_and!.
    + constructor; simpl in *; state_simpl; fin.
    + exists (POnce true). split; [by apply at_once_ret|].
      simpl in *; state_simpl; fin.
    + intros g' Hne. split; simpl in *; state_simpl; fin.
    + done.
    + done.
    + right. exists (CallbackLoop AtSleep). split; [done|].
      simpl in *; state_simpl.
      destruct Hok as (? & ? & Hd). destruct (Gnoloop Hd) as [-> ->].
      split_and!; [fin|fin|constructor].
  - simpl in He. injection He as <- <-.
    step_case G PEnter ltac:(by apply at_new_lock).
  - simpl in He. destruct (callbacksMu s) eqn:E; [done|]. injection He as <- <-.
    step_case G PLoad ltac:(by apply at_new_load).
  - simpl in He. injection He as <- <-.
    step_case G (PInc (nextCallbackID s)) ltac:(by apply at_new_inc).
  - simpl in He. injection He as <- <-.
    step_case G (PSet i) ltac:(by apply at_new_set).
    split_and!; eauto using next_inc, next_plain.
  - simpl in He. injection He as <- <-.
    step_case G PHold ltac:(by apply at_unlock).
    + by rewrite Nat.add_1_r, handles_S, <- Ghandles.
    + match goal with
      | H : <[_:=_]> _ !! _ = Some _ |- _ =>
          apply lookup_insert_Some in H as [[_ <-]|[_ ?]]; eauto
      end.
    + split_and!; try done.
      match goal with H : nextCallbackID _ = _ |- _ => rewrite H end.
      f_equal. lia.
  - simpl in He. injection He as <- <-.
    step_case G PHold ltac:(by apply at_unlock).
    match goal with
    | H : delete _ _ !! _ = Some _ |- _ =>
        apply lookup_delete_Some in H as [_ ?]; eauto
    end.
  - simpl in He. injection He as <- <-.
    step_case G PIdle ltac:(by apply at_user).
Qed.

Lemma callbackLoop_InCall g body s :
  body <> Return ->
  callbackLoop g (InCall body) s
  = match exec g body s with
    | Some (body', s') => Some (InCall body', s')
    | None => None
    end.
Proof. by destruct body. Qed.

Lemma Return_dec body : {body = Return} + {body <> Return}.
Proof. destruct body; (by left) || (by right). Qed.

Lemma at_pc_Return pc : at_pc pc Return -> pc = PIdle.
Proof. by inversion 1. Qed.

Lemma settled_snoc sh done cb outs o :
  sh = done ++ [cb] ->
  Forall2 outcome_of done outs ->
  outcome_of cb o ->
  Forall2 outcome_of sh (outs ++ [o]).
Proof.
  intros -> Hd Ho. apply Forall2_app; [done|]. by constructor.
Qed.

Ltac loop_case G Hok :=
  use_glob G; clear G; simpl in Hok; destruct_and?;
  split_and!; [constructor| |intros g' Hne; split|left];
  simpl; state_simpl; fin.

Lemma loop_inv s g pc pc' s' :
  Glob s -> goroutines s !! g = Some (CallbackLoop pc) ->
  loop_ok s g pc ->
  callbackLoop g pc s = Some (pc', s') ->
  Glob s'
  /\ loop_ok s' g pc'
  /\ (forall g', g' <> g -> frame g' s s')
  /\ (goroutines s' = goroutines s
      \/ exists gr, goroutines s' = goroutines s ++ [gr]
                    /\ good s' (length (goroutines s)) gr).
Proof.
  intros G Hl Hok He.
  assert (Hg : (g < length (goroutines s))%nat) by (by eapply lookup_lt_Some).
  assert (Hd := dispatchers_lookup _ _ _ Hl).
  destruct pc as [| |cb i|cb i|cb i f| |i f args|body].
  - simpl in He. destruct (callbackPromise s); [|done]. injection He as <- <-.
    loop_case G Hok.
  - simpl in He. destruct (pendingCallbacks s) as [|cb rest] eqn:Eq;
      injection He as <- <-.
    + loop_case G Hok.
    + loop_case G Hok. by rewrite Gqueue, Eq, <- app_assoc.
  - simpl in He. destruct (callbacksMu s) eqn:E; [done|]. injection He as <- <-.
    loop_case G Hok.
  - simpl in He. injection He as <- <-.
    loop_case G Hok.
  - simpl in He. destruct f as [f|]; injection He as <- <-.
    + loop_case G Hok.
      split_and!; [done|done| |by eauto].
      exists cb. by rewrite copy_args_eq.
    + loop_case G Hok.
  - simpl in He. injection He as <- <-.
    loop_case G Hok.
    match goal with H : ex _ |- _ => destruct H as (cb & done & Hs & Hf) end.
    split_and!; [done|done|]. eapply settled_snoc; eauto. by right.
  - simpl in He. injection He as <- <-.
    loop_case G Hok.
    match goal with
    | H : ex _ |- _ => destruct H as (cb & (done & Hs & Hf) & -> & ->)
    end.
    split.
    + eapply settled_snoc; eauto. by left.
    + exists PIdle. split; [by apply at_user|]. simpl. by state_simpl.
  - destruct Hok as (Hset & pc & Hat & Hpc).
    destruct (Return_dec body) as [->|Hnr].
    + simpl in He. injection He as <- <-.
      apply at_pc_Return in Hat as ->. simpl in Hpc.
      use_glob G.
      destruct Hpc.
      split_and!; [done|by simpl; split_and!|
                   intros g' Hne; by apply frame_same|by left].
    + rewrite callbackLoop_InCall in He by done.
      destruct (exec g body s) as [[body' s1]|] eqn:Ex; [|done].
      injection He as <- <-.
      destruct (exec_inv _ _ _ _ _ _ G Hg Hat Hpc Ex)
        as (G' & Hpc' & Hfr & Hs & Ho & Hgs).
      split_and!; [done| |done|done].
      simpl. unfold settled. by rewrite Hs, Ho.
Qed.

Lemma frame_set_goroutines g gs s :
  dispatchers gs = dispatchers (goroutines s) ->
  frame g s (set_goroutines gs s).
Proof. intros H. by apply frame_same. Qed.

Lemma good_set_goroutines g gr gs s :
  dispatchers gs = dispatchers (goroutines s) ->
  good s g gr -> good (set_goroutines gs s) g gr.
Proof.
  intros H. apply good_frame; [by apply frame_set_goroutines|done].
Qed.

Lemma Glob_set_goroutines gs s :
  length gs = length (goroutines s) ->
  dispatchers gs = dispatchers (goroutines s) ->
  Glob s -> Glob (set_goroutines gs s).
Proof.
  intros Hlen Hd G. use_glob G.
  constructor; unfold next_ok in *; simpl; rewrite ?Hlen, ?Hd; done.
Qed.

Lemma Inv_dispatchers_le s : Inv s -> (dispatchers (goroutines s) <= 1)%nat.
Proof.
  intros [G Hgood].
  destruct (callbackLoopOnce s) as [|h|] eqn:E.
  - rewrite (inv_once_fresh _ G E). lia.
  - pose proof (inv_once_held _ G _ E) as Hh.
    apply lookup_lt_is_Some in Hh as [gr Hgr].
    specialize (Hgood _ _ Hgr).
    assert (forall pc, pc_ok s h pc -> (dispatchers (goroutines s) <= 1)%nat)
      as Hpc.
    { intros [|[]| | | | |]; simpl; intros ?; destruct_and?;
        try congruence; lia. }
    destruct gr as [p|[]]; simpl in Hgood; destruct_and?; try done.
    + destruct Hgood as (pc & _ & ?). eauto.
    + match goal with H : ex _ |- _ => destruct H as (pc & _ & ?) end. eauto.
  - rewrite (inv_once_done _ G E). lia.
Qed.

Lemma step_assemble s s1 g gr gr' :
  Inv s -> goroutines s !! g = Some gr -> is_loop gr' = is_loop gr ->
  Glob s1 -> good s1 g gr' ->
  (forall g', g' <> g -> frame g' s s1) ->
  (is_loop gr = false ->
   shifted (trace s1) = shifted (trace s)
   /\ outcomes (trace s1) = outcomes (trace s)) ->
  (goroutines s1 = goroutines s
   \/ exists grn, goroutines s1 = goroutines s ++ [grn]
                  /\ good s1 (length (goroutines s)) grn) ->
  Inv (set_goroutines (<[g := gr']> (goroutines s1)) s1).
Proof.
  intros HI Hl Hk G1 Hg1 Hfr Htr Hgs.
  pose proof (Inv_dispatchers_le _ HI) as Hle. destruct HI as [G Hgood].
  assert (Hl1 : goroutines s1 !! g = Some gr).
  { destruct Hgs as [->|(grn & -> & _)]; [done|].
    by apply lookup_app_l_Some. }
  assert (Hd : dispatchers (<[g:=gr']> (goroutines s1))
               = dispatchers (goroutines s1)).
  { by eapply dispatchers_insert. }
  split.
  - apply Glob_set_goroutines; [by rewrite length_insert|done|done].
  - simpl. intros g2 gr2 Hl2. apply good_set_goroutines; [done|].
    destruct (decide (g2 = g)) as [->|Hne].
    + rewrite list_lookup_insert_eq in Hl2 by (by eapply lookup_lt_Some).
      by injection Hl2 as <-.
    + rewrite list_lookup_insert_ne in Hl2 by done.
      assert (goroutines s !! g2 = Some gr2
              \/ g2 = length (goroutines s) /\ good s1 g2 gr2) as [Hold|[_ ?]];
        [|eapply good_frame; [by apply Hfr| |by apply Hgood]|done].
      * destruct Hgs as [<-|(grn & E & Hgrn)]; [by left|].
        rewrite E in Hl2. apply lookup_app_Some in Hl2 as [?|[Hge Hl2]];
          [by left|right].
        apply list_lookup_singleton_Some in Hl2 as [Hz <-].
        assert (g2 = length (goroutines s)) as -> by lia. done.
      * intros Hloop. apply Htr.
        destruct gr as [p|pc]; [done|]. destruct gr2 as [|pc2]; [done|].
        pose proof (dispatchers_lookup2 _ _ _ _ _ Hne Hold Hl). lia.
Qed.

Lemma step_inv g s : Inv s -> Inv (step g s).
Proof.
  intros HI. unfold step.
  destruct (goroutines s !! g) as [[p|pc]|] eqn:Hl; [| |done].
  - destruct (exec g p s) as [[p' s1]|] eqn:Ex; [|done].
    pose proof HI as [G Hgood].
    destruct (Hgood _ _ Hl) as (pc & Hat & Hpc).
    assert (Hg : (g < length (goroutines s))%nat) by (by eapply lookup_lt_Some).
    destruct (exec_inv _ _ _ _ _ _ G Hg Hat Hpc Ex)
      as (G' & Hpc' & Hfr & Hs & Ho & Hgs).
    by eapply (step_assemble s s1 g (Code p) (Code p')).
  - destruct (callbackLoop g pc s) as [[pc' s1]|] eqn:Ex; [|done].
    pose proof HI as [G Hgood].
    destruct (loop_inv _ _ _ _ _ G Hl (Hgood _ _ Hl) Ex)
      as (G' & Hpc' & Hfr & Hgs).
    by eapply (step_assemble s s1 g (CallbackLoop pc) (CallbackLoop pc')).
Qed.

Lemma js_effect_inv s s' : js_effect s s' -> Inv s -> Inv s'.
Proof.
  intros He [G Hgood]. split; [by eapply js_effect_glob|].
  destruct (js_effect_readers _ _ He) as (Hs & Ho & _).
  rewrite (je_goroutines _ _ He). intros g gr Hl.
  eapply good_frame; [by apply js_effect_frame|done|by apply Hgood].
Qed.

Lemma act_inv s a : Inv s -> Inv (act s a).
Proof.
  destruct a as [g|f args]; simpl.
  - apply step_inv.
  - apply js_effect_inv, js_call_effect.
Qed.

Lemma run_inv schedule s : Inv s -> Inv (run schedule s).
Proof.
  revert s. induction schedule as [|a l IH]; intros s H; [done|].
  simpl. by apply IH, act_inv.
Qed.

Lemma init_inv mains : Forall user_code mains -> Inv (init mains).
Proof.
  intros Hm. split.
  - constructor; simpl; try done.
    + intros _. unfold dispatchers.
      induction mains; simpl; [done|]. apply IHmains. by inversion Hm.
  - simpl. intros g gr Hl. apply list_lookup_fmap_Some in Hl as (p & -> & Hl).
    exists PIdle. split; [|done]. apply at_user.
    eapply Forall_lookup_1; eauto.
Qed.

Lemma reachable_inv s : reachable s -> Inv s.
Proof. intros (mains & schedule & Hm & ->). by apply run_inv, init_inv. Qed.

(* ===================================================================== *)
(** ** One goroutine running alone *)
(* ===================================================================== *)


Lemma run_solo_S g n s : run_solo g (S n) s = run_solo g n (step g s).
Proof. unfold run_solo. by rewrite Nat.iter_succ_r. Qed.

Lemma run_solo_0 g s : run_solo g 0 s = s.
Proof. done. Qed.

Lemma step_Code g s p p' s' :
  goroutines s !! g = Some (Code p) ->
  exec g p s = Some (p', s') ->
  step g s = set_goroutines (<[g := Code p']> (goroutines s')) s'.
Proof. intros Hl He. unfold step. by rewrite Hl, He. Qed.

Lemma step_Loop g s pc pc' s' :
  goroutines s !! g = Some (CallbackLoop pc) ->
  callbackLoop g pc s = Some (pc', s') ->
  step g s = set_goroutines (<[g := CallbackLoop pc']> (goroutines s')) s'.
Proof. intros Hl He. unfold step. by rewrite Hl, He. Qed.

Lemma lookup_insert_here {A} (l : list A) g x y :
  l !! g = Some y -> <[g := x]> l !! g = Some x.
Proof. intros H. apply list_lookup_insert_eq. by eapply lookup_lt_Some. Qed.

Lemma lookup_insert_app_here {A} (l l' : list A) g x y :
  l !! g = Some y -> (<[g := x]> l ++ l') !! g = Some x.
Proof.
  intros H. apply lookup_app_l_Some. by eapply lookup_insert_here.
Qed.

Lemma lookup_app_here {A} (l l' : list A) g y :
  l !! g = Some y -> (l ++ l') !! g = Some y.
Proof. apply lookup_app_l_Some. Qed.

Lemma insert_app_here {A} (l l' : list A) g x y :
  l !! g = Some y -> <[g := x]> (l ++ l') = <[g := x]> l ++ l'.
Proof. intros H. apply insert_app_l. by eapply lookup_lt_Some. Qed.

Ltac use_state_eqs :=
  repeat match goal with
  | H : callbacksMu _ = _ |- _ => rewrite H
  | H : callbackLoopOnce _ = _ |- _ => rewrite H
  | H : pendingCallbacks _ = _ |- _ => rewrite H
  | H : callbackPromise _ = _ |- _ => rewrite H
  | H : @lookup _ _ (gmap _ _) _ _ _ = _ |- _ => rewrite H
  end.

Ltac norm_state :=
  unfold spawn, emit, set_callbacksMu, set_callbacks, set_nextCallbackID,
    set_callbackLoopOnce, set_pendingCallbacks, set_callbackPromise,
    set_goroutines;
  cbn [callbacksMu callbacks nextCallbackID callbackLoopOnce pendingCallbacks
       callbackPromise goroutines trace].

Ltac solo_lookup :=
  norm_state;
  first [ eassumption
        | eapply lookup_insert_here; solo_lookup
        | eapply lookup_insert_app_here; solo_lookup
        | eapply lookup_app_here; solo_lookup ].

Ltac solo_step :=
  rewrite run_solo_S;
  first [ erewrite step_Code;
          [|solo_lookup|cbn [exec and_then]; norm_state; use_state_eqs;
                        reflexivity]
        | erewrite step_Loop;
          [|solo_lookup|cbn [callbackLoop]; norm_state; use_state_eqs;
                        reflexivity] ];
  norm_state.

Ltac solo_done :=
  rewrite run_solo_0;
  repeat (erewrite insert_app_here by solo_lookup);
  rewrite ?list_insert_insert_eq, <- ?app_assoc;
  reflexivity.

(** [Close] alone, from a state where the mutex is free. *)
Lemma Close_run g s c k :
  goroutines s !! g = Some (Code (Close c k)) ->
  callbacksMu s = None ->
  run_solo g 3 s
  = {| callbacksMu := None;
       callbacks := delete (id c) (callbacks s);
       nextCallbackID := nextCallbackID s;
       callbackLoopOnce := callbackLoopOnce s;
       pendingCallbacks := pendingCallbacks s;
       callbackPromise := callbackPromise s;
       goroutines := <[g := Code k]> (goroutines s);
       trace := trace s ++ [EvLock g; EvUnlock g] |}.
Proof.
  intros Hl Hmu. unfold Close in Hl.
  do 3 solo_step. solo_done.
Qed.

(** [NewCallback] alone, when the dispatcher is already started. *)
Lemma NewCallback_run g s fn ret :
  goroutines s !! g = Some (Code (NewCallback fn ret)) ->
  callbacksMu s = None ->
  callbackLoopOnce s = OnceDone ->
  run_solo g 6 s
  = {| callbacksMu := None;
       callbacks := <[nextCallbackID s := fn]> (callbacks s);
       nextCallbackID := uint32 (nextCallbackID s + 1);
       callbackLoopOnce := OnceDone;
       pendingCallbacks := pendingCallbacks s;
       callbackPromise := callbackPromise s;
       goroutines :=
         <[g := Code (ret {| id := nextCallbackID s;
                             enqueueFn := makeCallbackHelper (nextCallbackID s) |})]>
           (goroutines s);
       trace := trace s ++ [EvLock g; EvRegister (nextCallbackID s); EvUnlock g] |}.
Proof.
  intros Hl Hmu Honce. unfold NewCallback in Hl.
  do 6 solo_step. solo_done.
Qed.

(** The first [NewCallback], alone: it also starts the dispatcher. *)
Lemma NewCallback_first_run g s fn ret :
  goroutines s !! g = Some (Code (NewCallback fn ret)) ->
  callbacksMu s = None ->
  callbackLoopOnce s = OnceFresh ->
  run_solo g 8 s
  = {| callbacksMu := None;
       callbacks := <[nextCallbackID s := fn]> (callbacks s);
       nextCallbackID := uint32 (nextCallbackID s + 1);
       callbackLoopOnce := OnceDone;
       pendingCallbacks := pendingCallbacks s;
       callbackPromise := callbackPromise s;
       goroutines :=
         <[g := Code (ret {| id := nextCallbackID s;
                             enqueueFn := makeCallbackHelper (nextCallbackID s) |})]>
           (goroutines s) ++ [CallbackLoop AtSleep];
       trace := trace s ++ [EvLock g; EvRegister (nextCallbackID s); EvUnlock g] |}.
Proof.
  intros Hl Hmu Honce. unfold NewCallback in Hl.
  do 8 solo_step. solo_done.
Qed.

(** One iteration of the inner loop of [callbackLoop] on a record whose
    handle is not in the table. *)
Lemma drain_closed_run g s cb rest :
  goroutines s !! g = Some (CallbackLoop AtShift) ->
  pendingCallbacks s = cb :: rest ->
  callbacksMu s = None ->
  callbacks s !! uint32 (cb_id cb) = None ->
  run_solo g 5 s
  = {| callbacksMu := None;
       callbacks := callbacks s;
       nextCallbackID := nextCallbackID s;
       callbackLoopOnce := callbackLoopOnce s;
       pendingCallbacks := rest;
       callbackPromise := callbackPromise s;
       goroutines := <[g := CallbackLoop AtShift]> (goroutines s);
       trace := trace s ++ [EvShift cb; EvLock g; EvUnlock g;
                            EvConsoleError "call to closed callback"] |}.
Proof.
  intros Hl Hq Hmu Hcb.
  do 5 solo_step. solo_done.
Qed.

(** One iteration of the inner loop on a record whose handle is in the
    table, up to the call of the registered function. *)
Lemma drain_call_run g s cb rest (f : GoFunc) :
  goroutines s !! g = Some (CallbackLoop AtShift) ->
  pendingCallbacks s = cb :: rest ->
  callbacksMu s = None ->
  callbacks s !! uint32 (cb_id cb) = Some f ->
  run_solo g 5 s
  = {| callbacksMu := None;
       callbacks := callbacks s;
       nextCallbackID := nextCallbackID s;
       callbackLoopOnce := callbackLoopOnce s;
       pendingCallbacks := rest;
       callbackPromise := callbackPromise s;
       goroutines := <[g := CallbackLoop (InCall (f (cb_args cb)))]> (goroutines s);
       trace := trace s ++ [EvShift cb; EvLock g; EvUnlock g;
                            EvCall (uint32 (cb_id cb)) (cb_args cb)] |}.
Proof.
  intros Hl Hq Hmu Hcb.
  do 5 solo_step. rewrite copy_args_eq. solo_done.
Qed.

(* ===================================================================== *)
(** ** What a step leaves alone *)
(* ===================================================================== *)


(** The statements that read or write [callbacks] or [nextCallbackID]. *)
Definition touches_registry (p : Prog) : Prop :=
  match p with
  | LoadNext _ | IncNext _ | MapSet _ _ _ | MapDelete _ _ => True
  | _ => False
  end.

(** The goroutine is about to read or write [callbacks] or
    [nextCallbackID]. *)
Definition at_registry (gr : Goroutine) : Prop :=
  match gr with
  | Code p => touches_registry p
  | CallbackLoop (AtLookup _ _) => True
  | CallbackLoop (InCall body) => touches_registry body
  | CallbackLoop _ => False
  end.

Lemma at_pc_registry s g pc p :
  at_pc pc p -> pc_ok s g pc -> touches_registry p -> callbacksMu s = Some g.
Proof.
  intros Hat Hok Ht.
  destruct Hat as [p Hu| | | | | | | |]; simpl in Hok, Ht; destruct_and?;
    try done.
  by destruct Hu.
Qed.

(** A record in the queue is not forgotten: the wake signal is set, or
    some dispatcher is awake. *)
Definition wake_pending (s : State) : Prop :=
  pendingCallbacks s <> [] ->
  callbackPromise s = true
  \/ exists g pc, goroutines s !! g = Some (CallbackLoop pc) /\ pc <> AtSleep.

(** A step either signals, or leaves the queue and the signal alone. *)
Definition keeps_signal (s s' : State) : Prop :=
  callbackPromise s' = true
  \/ (pendingCallbacks s' = pendingCallbacks s
      /\ callbackPromise s' = callbackPromise s).

Lemma js_call_signal f args s :
  goroutines (js_state (js_call f args s)) = goroutines s
  /\ keeps_signal s (js_state (js_call f args s)).
Proof.
  split; [apply (je_goroutines _ _ (js_call_effect f args s))|].
  revert args s. induction f as [i|a b c fn IH]; intros args s; simpl.
  - by left.
  - assert (Hm : forall (on : bool) m v s0,
               exists s1, (if on then js_method m v s0 else JsOk s0) = JsOk s1
                          /\ pendingCallbacks s1 = pendingCallbacks s0
                          /\ callbackPromise s1 = callbackPromise s0
               \/ (if on then js_method m v s0 else JsOk s0) = JsThrow s0).
    { intros [] m v s0; [|by exists s0; left].
      destruct v; simpl; try (by exists s0; right).
      eexists. by left. }
    destruct (Hm a EvPreventDefault (hd Undefined args) s)
      as (s1 & [(-> & Hq1 & Hp1) | ->]); simpl; [|by right].
    destruct (Hm b EvStopPropagation (hd Undefined args) s1)
      as (s2 & [(-> & Hq2 & Hp2) | ->]); simpl; [|by right].
    destruct (Hm c EvStopImmediatePropagation (hd Undefined args) s2)
      as (s3 & [(-> & Hq3 & Hp3) | ->]); simpl;
      [|right; split; congruence].
    destruct (IH [hd Undefined args] s3) as [Ht | [Hq Hp]]; [by left|].
    right. split; congruence.
Qed.

Lemma exec_signal g p s p' s' :
  exec g p s = Some (p', s') ->
  (exists l, goroutines s' = goroutines s ++ l) /\ keeps_signal s s'.
Proof.
  intros He.
  destruct p; simpl in He;
    repeat match type of He with
           | context [match ?x with _ => _ end] => destruct x eqn:?
           end;
    try discriminate; injection He as <- <-;
    try (split; [by exists []; rewrite app_nil_r | by right]);
    try (split; [by eexists | by right]).
  - match goal with H : js_call ?f ?a ?s = _ |- _ =>
      destruct (js_call_signal f a s) as [Hg Hk]; rewrite H in Hg, Hk end.
    simpl in *. split; [exists []; by rewrite app_nil_r | done].
  - match goal with H : js_call ?f ?a ?s = _ |- _ =>
      destruct (js_call_signal f a s) as [Hg Hk]; rewrite H in Hg, Hk end.
    simpl in *. split; [exists []; by rewrite app_nil_r | done].
Qed.

Lemma loop_signal g pc s pc' s' :
  callbackLoop g pc s = Some (pc', s') ->
  (exists l, goroutines s' = goroutines s ++ l)
  /\ (pc' <> AtSleep \/ pendingCallbacks s' = []).
Proof.
  intros He.
  destruct pc; simpl in He;
    repeat match type of He with
           | context [match ?x with _ => _ end] => destruct x eqn:?
           end;
    try discriminate; injection He as <- <-;
    try (split; [by exists []; rewrite app_nil_r | by (left + right)]);
    match goal with H : exec _ _ _ = Some _ |- _ =>
      destruct (exec_signal _ _ _ _ _ H) as [Hl _]; simpl in Hl end;
    by split; [|left].
Qed.

Lemma wake_pending_act s a : wake_pending s -> wake_pending (act s a).
Proof.
  intros W. destruct a as [g|f args]; simpl.
  - unfold step. destruct (goroutines s !! g) as [[p|pc]|] eqn:Hg; [| |done].
    + destruct (exec g p s) as [[p' s']|] eqn:He; [|done].
      destruct (exec_signal _ _ _ _ _ He) as [[l Hl] [Ht | [Hq Hp]]];
        intros Hne; simpl in *; [by left|].
      rewrite Hq in Hne. destruct (W Hne) as [Ht | (g0 & pc & Hg0 & Hpc)];
        [left; congruence|].
      right. exists g0, pc. split; [|done].
      assert (g0 <> g) by (intros ->; congruence).
      rewrite list_lookup_insert_ne by done.
      rewrite Hl. by apply lookup_app_l_Some.
    + destruct (callbackLoop g pc s) as [[pc' s']|] eqn:He; [|done].
      destruct (loop_signal _ _ _ _ _ He) as [[l Hl] [Hpc | Hq]];
        intros Hne; simpl in *; [|done].
      right. exists g, pc'. split; [|done].
      apply list_lookup_insert_eq. rewrite Hl, length_app.
      apply lookup_lt_Some in Hg. lia.
  - destruct (js_call_signal f args s) as [Hg [Ht | [Hq Hp]]];
      intros Hne; [by left|].
    rewrite Hq in Hne. rewrite Hg, Hp. by apply W.
Qed.

Lemma wake_pending_run schedule s :
  wake_pending s -> wake_pending (run schedule s).
Proof.
  revert s. induction schedule as [|a l IH]; intros s W; [done|].
  simpl. apply IH. by apply wake_pending_act.
Qed.


(** What one statement of Go code does to the goroutines, the trace and
    the shared variables. *)
Record exec_effect (p : Prog) (s s' : State) : Prop := {
  ee_goroutines : exists l, goroutines s' = goroutines s ++ l;
  ee_trace : exists evs,
      trace s' = trace s ++ evs
      /\ shifted evs = [] /\ outcomes evs = []
      /\ (registered evs = []
          \/ exists i fn k, p = MapSet i fn k /\ registered evs = [i]);
  ee_callbacks : callbacks s' = callbacks s \/ touches_registry p;
  ee_pending : exists new, pendingCallbacks s' = pendingCallbacks s ++ new;
}.

Lemma exec_exec_effect g p s p' s' :
  exec g p s = Some (p', s') -> exec_effect p s s'.
Proof.
  intros He.
  assert (Hsame : forall st ev,
            shifted [ev] = [] -> outcomes [ev] = [] -> registered [ev] = [] ->
            goroutines st = goroutines s -> callbacks st = callbacks s ->
            pendingCallbacks st = pendingCallbacks s ->
            trace st = trace s ++ [ev] -> exec_effect p s st).
  { intros st ev H1 H2 H3 Hg Hc Hq Ht. split.
    - exists []. by rewrite app_nil_r.
    - exists [ev]. split_and!; try done. by left.
    - by left.
    - exists []. by rewrite app_nil_r. }
  assert (Hquiet : forall st,
            (exists l, goroutines st = goroutines s ++ l) ->
            (callbacks st = callbacks s \/ touches_registry p) ->
            pendingCallbacks st = pendingCallbacks s ->
            trace st = trace s -> exec_effect p s st).
  { intros st Hg Hc Hq Ht. split.
    - done.
    - exists []. rewrite app_nil_r. split_and!; try done. by left.
    - done.
    - exists []. by rewrite app_nil_r. }
  destruct p as [|msg|f0 k|k|k|p0 k|k|k|k|k|i fn k|i k|f0 args k];
    simpl in He;
    repeat match type of He with
           | context [match ?x with _ => _ end] => destruct x eqn:?
           end;
    try discriminate; injection He as <- <-;
    try (apply Hquiet; simpl;
         [first [by exists []; rewrite app_nil_r | by eexists]
         |first [by left | by right] | done | done]; fail);
    try (by apply (Hsame _ (EvLock g)));
    try (by apply (Hsame _ (EvUnlock g))).
  - split; simpl.
    + exists []. by rewrite app_nil_r.
    + exists [EvRegister i]. split_and!; try done. right. by eexists _, _, _.
    + by right.
    + exists []. by rewrite app_nil_r.
  - match goal with H : js_call ?f ?a ?s = _ |- _ =>
      pose proof (js_call_effect f a s) as Hj; rewrite H in Hj end.
    simpl in Hj. destruct Hj as [_ Hc _ _ Hg (evs & Ht & Hq & Hs & Ho & Hr)].
    split.
    + exists []. by rewrite app_nil_r.
    + exists evs. split_and!; try done. by left.
    + by left.
    + by eexists.
  - match goal with H : js_call ?f ?a ?s = _ |- _ =>
      pose proof (js_call_effect f a s) as Hj; rewrite H in Hj end.
    simpl in Hj. destruct Hj as [_ Hc _ _ Hg (evs & Ht & Hq & Hs & Ho & Hr)].
    split.
    + exists []. by rewrite app_nil_r.
    + exists evs. split_and!; try done. by left.
    + by left.
    + by eexists.
Qed.

(** A step of one goroutine leaves the code of the others alone. *)
Lemma step_other g g' s x :
  g' <> g -> goroutines s !! g = Some x ->
  goroutines (step g' s) !! g = Some x.
Proof.
  intros Hne Hl. unfold step.
  destruct (goroutines s !! g') as [[p|pc]|] eqn:Hg'; [| |done].
  - destruct (exec g' p s) as [[p' s']|] eqn:He; [|done].
    destruct (ee_goroutines _ _ _ (exec_exec_effect _ _ _ _ _ He)) as [l Hgl].
    simpl. rewrite list_lookup_insert_ne by done.
    rewrite Hgl. by apply lookup_app_l_Some.
  - destruct (callbackLoop g' pc s) as [[pc' s']|] eqn:He; [|done].
    destruct (loop_signal _ _ _ _ _ He) as [[l Hgl] _].
    simpl. rewrite list_lookup_insert_ne by done.
    rewrite Hgl. by apply lookup_app_l_Some.
Qed.

(** The trace only grows. *)
Lemma loop_trace g pc s pc' s' :
  callbackLoop g pc s = Some (pc', s') -> exists evs, trace s' = trace s ++ evs.
Proof.
  intros He.
  destruct pc; simpl in He;
    repeat match type of He with
           | context [match ?x with _ => _ end] => destruct x eqn:?
           end;
    try discriminate; injection He as <- <-; simpl;
    try (by exists []; rewrite app_nil_r); try (by eexists);
    match goal with H : exec _ _ _ = Some _ |- _ =>
      destruct (ee_trace _ _ _ (exec_exec_effect _ _ _ _ _ H)) as (evs & ? & _)
    end; by eexists.
Qed.

Lemma act_trace s a : exists evs, trace (act s a) = trace s ++ evs.
Proof.
  assert (Hsame : exists evs, trace s = trace s ++ evs)
    by (by exists []; rewrite app_nil_r).
  destruct a as [g|f args]; simpl.
  - unfold step. destruct (goroutines s !! g) as [[p|pc]|]; [| |done].
    + destruct (exec g p s) as [[p' s']|] eqn:He; [|done].
      destruct (ee_trace _ _ _ (exec_exec_effect _ _ _ _ _ He)) as (evs & ? & _).
      simpl. by eexists.
    + destruct (callbackLoop g pc s) as [[pc' s']|] eqn:He; [|done].
      simpl. by eapply loop_trace.
  - destruct (je_trace _ _ (js_call_effect f args s)) as (evs & ? & _).
    by eexists.
Qed.

(** When a dispatcher is there, every other goroutine runs client
    code. *)
Lemma Inv_other_is_code s g g' pc gr :
  Inv s -> goroutines s !! g = Some (CallbackLoop pc) -> g' <> g ->
  goroutines s !! g' = Some gr -> exists p, gr = Code p.
Proof.
  intros HI Hg Hne Hg'. destruct gr as [p|pc']; [by eexists|].
  pose proof (Inv_dispatchers_le _ HI).
  pose proof (dispatchers_lookup2 _ _ _ _ _ Hne Hg' Hg). lia.
Qed.

(** Who is about to read or write the table or the counter holds the
    mutex. *)
Lemma Inv_registry_held s g gr :
  Inv s -> goroutines s !! g = Some gr -> at_registry gr ->
  callbacksMu s = Some g.
Proof.
  intros [G Hgood] Hl Ht. specialize (Hgood _ _ Hl).
  destruct gr as [p|pc]; simpl in Hgood, Ht.
  - destruct Hgood as (pc & Hat & Hok). by eapply at_pc_registry.
  - destruct pc; simpl in Hgood; destruct_and?; try done.
    match goal with H : ex _ |- _ => destruct H as (pc & Hat & Hok) end.
    by eapply at_pc_registry.
Qed.

(* ===================================================================== *)
(** ** Properties of the package *)
(* ===================================================================== *)


(** A goroutine can run its next statement. *)
Definition can_step (g : nat) (s : State) : Prop :=
  match goroutines s !! g with
  | Some (Code p) => is_Some (exec g p s)
  | Some (CallbackLoop pc) => is_Some (callbackLoop g pc s)
  | None => False
  end.

(** The number of statements of [NewCallback]: eight for the call that
    starts the dispatcher, six for every later one. *)
Definition NewCallback_steps (s : State) : nat :=
  match callbackLoopOnce s with
  | OnceFresh => 8
  | _ => 6
  end.

Lemma run_app l1 l2 s : run (l1 ++ l2) s = run l2 (run l1 s).
Proof. apply fold_left_app. Qed.

Lemma reachable_run schedule s : reachable s -> reachable (run schedule s).
Proof.
  intros (mains & sched0 & Hm & ->). exists mains, (sched0 ++ schedule).
  split; [done|]. by rewrite run_app.
Qed.

Lemma run_solo_add g a b s :
  run_solo g (a + b) s = run_solo g b (run_solo g a s).
Proof.
  revert s. induction a as [|a IH]; intros s; [done|].
  change (S a + b)%nat with (S (a + b)). by rewrite !run_solo_S, IH.
Qed.

Lemma run_repeat_Sched g n s : run (repeat (Sched g) n) s = run_solo g n s.
Proof.
  revert s. induction n as [|n IH]; intros s; [done|].
  rewrite run_solo_S. simpl. apply IH.
Qed.

Lemma exec_once_done g p s p' s' :
  exec g p s = Some (p', s') ->
  callbackLoopOnce s = OnceDone -> callbackLoopOnce s' = OnceDone.
Proof.
  intros He Hd. destruct p; simpl in He; try done;
    try (injection He as <- <-; done).
  - rewrite Hd in He. by injection He as <- <-.
  - destruct (callbacksMu s); [done|]. by injection He as <- <-.
  - pose proof (js_call_effect f args s) as Hj.
    apply je_once in Hj.
    destruct (js_call f args s); injection He as <- <-; simpl in Hj;
      congruence.
Qed.

Lemma callbackLoop_once_done g pc s pc' s' :
  callbackLoop g pc s = Some (pc', s') ->
  callbackLoopOnce s = OnceDone -> callbackLoopOnce s' = OnceDone.
Proof.
  intros He Hd. destruct pc as [| |cb i|cb i|cb i f| |i f args|body];
    simpl in He.
  - destruct (callbackPromise s); [|done]. by injection He as <- <-.
  - destruct (pendingCallbacks s); by injection He as <- <-.
  - destruct (callbacksMu s); [done|]. by injection He as <- <-.
  - by injection He as <- <-.
  - destruct f; by injection He as <- <-.
  - by injection He as <- <-.
  - by injection He as <- <-.
  - destruct (Return_dec body) as [->|Hnr].
    + by injection He as <- <-.
    + change (callbackLoop g (InCall body) s = Some (pc', s')) in He.
      rewrite callbackLoop_InCall in He by done.
      destruct (exec g body s) as [[b s1]|] eqn:Ex; [|done].
      injection He as <- <-. by eapply exec_once_done.
Qed.

Lemma act_once_done s a :
  callbackLoopOnce s = OnceDone -> callbackLoopOnce (act s a) = OnceDone.
Proof.
  intros Hd. destruct a as [g|f args]; simpl.
  - unfold step. destruct (goroutines s !! g) as [[p|pc]|]; [| |done].
    + destruct (exec g p s) as [[p' s1]|] eqn:Ex; [|done]. simpl.
      by eapply exec_once_done.
    + destruct (callbackLoop g pc s) as [[pc' s1]|] eqn:Ex; [|done]. simpl.
      by eapply callbackLoop_once_done.
  - by rewrite (je_once _ _ (js_call_effect f args s)).
Qed.

Lemma run_once_done schedule s :
  callbackLoopOnce s = OnceDone -> callbackLoopOnce (run schedule s) = OnceDone.
Proof.
  revert s. induction schedule as [|a l IH]; intros s H; [done|].
  simpl. by apply IH, act_once_done.
Qed.

(** C5: the dispatcher goes from unstarted to running exactly once, on
    the first registration, in every interleaving: there is never more
    than one [callbackLoop] goroutine; there is none while the guard is
    untouched; the first [NewCallback] starts one; once one registration
    has been through the guard, or a handle has been given out, there is
    exactly one, and that stays so in every continuation of the run. *)
Theorem dispatcher_started_once s :
  reachable s ->
  (dispatchers (goroutines s) <= 1)%nat
  /\ (callbackLoopOnce s = OnceFresh -> dispatchers (goroutines s) = 0%nat)
  /\ (forall g fn ret,
        callbackLoopOnce s = OnceFresh -> callbacksMu s = None ->
        goroutines s !! g = Some (Code (NewCallback fn ret)) ->
        dispatchers (goroutines (run_solo g 8 s)) = 1%nat)
  /\ (registered (trace s) <> [] -> callbackLoopOnce s = OnceDone)
  /\ (callbackLoopOnce s = OnceDone ->
      forall schedule,
        callbackLoopOnce (run schedule s) = OnceDone
        /\ dispatchers (goroutines (run schedule s)) = 1%nat).
Proof.
  intros Hr. pose proof (reachable_inv _ Hr) as HI.
  pose proof (Inv_dispatchers_le _ HI) as Hle. destruct HI as [G Hgood].
  split_and!.
  - done.
  - apply (inv_once_fresh _ G).
  - intros g fn ret Hf Hmu Hl. rewrite (NewCallback_first_run _ _ _ _ Hl Hmu Hf).
    cbn [goroutines]. rewrite dispatchers_app, dispatchers_one.
    erewrite dispatchers_insert; [|exact Hl|done].
    rewrite (inv_once_fresh _ G Hf). done.
  - apply (inv_registered _ G).
  - intros Hd schedule. pose proof (run_once_done schedule _ Hd) as Hd'.
    split; [done|].
    pose proof (reachable_inv _ (reachable_run schedule _ Hr)) as [G' _].
    by apply (inv_once_done _ G').
Qed.














Lemma at_pc_Lock pc k : at_pc pc (Lock k) -> pc = PIdle \/ pc = PEnter.
Proof. inversion 1; eauto. Qed.

Lemma held_can_exec s g pc p :
  at_pc pc p -> pc_ok s g pc -> callbacksMu s = Some g ->
  p <> Return /\ is_Some (exec g p s).
Proof.
  intros Hat Hok Hmu.
  destruct Hat; simpl in Hok; destruct_and?; try congruence;
    (split; [done|simpl; eauto]).
Qed.

(** C7: the registry mutex is not held while a registered function runs.
    In every reachable state the dispatcher holds the mutex only at the
    table lookup and the unlock after it, or inside a call of
    [NewCallback] or [Close] that the running function made itself; it
    does not hold it when it calls the function, nor when the function
    reaches a [Lock]; and whoever holds the mutex can run its next
    statement, so nobody waits for the mutex forever. *)
Theorem lock_free_during_call s :
  reachable s ->
  (forall g pc,
     goroutines s !! g = Some (CallbackLoop pc) -> callbacksMu s = Some g ->
     match pc with
     | AtLookup _ _ | AtUnlock _ _ _ => True
     | InCall body => body <> Return /\ is_Some (exec g body s)
     | _ => False
     end)
  /\ (forall g i f args,
        goroutines s !! g = Some (CallbackLoop (AtCall i f args)) ->
        callbacksMu s <> Some g)
  /\ (forall g k,
        goroutines s !! g = Some (CallbackLoop (InCall (Lock k))) ->
        callbacksMu s <> Some g)
  /\ (forall g, callbacksMu s = Some g -> can_step g s).
Proof.
  intros Hr. pose proof (reachable_inv _ Hr) as [G Hgood].
  assert (Hpcs : forall g pc,
     goroutines s !! g = Some (CallbackLoop pc) -> callbacksMu s = Some g ->
     match pc with
     | AtLookup _ _ | AtUnlock _ _ _ => True
     | InCall body => body <> Return /\ is_Some (exec g body s)
     | _ => False
     end).
  { intros g pc Hl Hmu. specialize (Hgood _ _ Hl). simpl in Hgood.
    destruct pc; simpl in Hgood; destruct_and?; try done.
    match goal with H : ex _ |- _ => destruct H as (pc & Hat & Hok) end.
    by eapply held_can_exec. }
  split_and!.
  - done.
  - intros g i f args Hl Hmu. apply (Hpcs _ _ Hl Hmu).
  - intros g k Hl Hmu. destruct (Hgood _ _ Hl) as (_ & pc & Hat & Hok).
    apply at_pc_Lock in Hat as [-> | ->]; simpl in Hok; by destruct Hok.
  - intros g Hmu. unfold can_step.
    pose proof (inv_mu_held _ G _ Hmu) as Hlt.
    apply lookup_lt_is_Some in Hlt as [gr Hl]. rewrite Hl.
    destruct gr as [p|pc].
    + destruct (Hgood _ _ Hl) as (pc & Hat & Hok).
      by eapply held_can_exec.
    + specialize (Hpcs _ _ Hl Hmu).
      destruct pc; try done; simpl; eauto.
      * destruct f; eauto.
      * destruct Hpcs as [Hnr [x Hx]].
        change (is_Some (callbackLoop g (InCall body) s)).
        rewrite callbackLoop_InCall, Hx by done. destruct x. eauto.
Qed.

Lemma In_handles x n :
  In x (handles n) <-> exists k, (k < n)%nat /\ x = uint32 (1 + Z.of_nat k).
Proof.
  unfold handles. rewrite in_map_iff. split.
  - intros (k & <- & Hk). apply in_seq in Hk. exists k. split; [lia|done].
  - intros (k & Hk & ->). exists k. split; [done|]. apply in_seq. lia.
Qed.

Lemma uint32_small z : 0 <= z < 2 ^ 32 -> uint32 z = z.
Proof. apply Z.mod_small. Qed.

Lemma handles_NoDup n : Z.of_nat n < 2 ^ 32 -> NoDup (handles n).
Proof.
  induction n as [|n IH]; intros Hn; [constructor|].
  rewrite handles_S. apply NoDup_app. split_and!.
  - apply IH. lia.
  - intros x Hx Hx'. apply list_elem_of_In, In_handles in Hx as (k & Hk & ->).
    apply list_elem_of_singleton in Hx'.
    rewrite !uint32_small in Hx' by lia. lia.
  - apply NoDup_singleton.
Qed.

Lemma handles_nonzero n : Z.of_nat n < 2 ^ 32 -> ~ In 0 (handles n).
Proof.
  intros Hn (k & Hk & Hz)%In_handles.
  rewrite uint32_small in Hz by lia. lia.
Qed.

(** [NewCallback] alone, whether or not it is the first one. *)
Lemma NewCallback_any_run g s fn ret :
  goroutines s !! g = Some (Code (NewCallback fn ret)) ->
  callbacksMu s = None ->
  callbackLoopOnce s = OnceFresh \/ callbackLoopOnce s = OnceDone ->
  let s' := run_solo g (NewCallback_steps s) s in
  let c := {| id := nextCallbackID s;
              enqueueFn := makeCallbackHelper (nextCallbackID s) |} in
  goroutines s' !! g = Some (Code (ret c))
  /\ callbacksMu s' = None
  /\ callbacks s' = <[nextCallbackID s := fn]> (callbacks s)
  /\ nextCallbackID s' = uint32 (nextCallbackID s + 1)
  /\ callbackLoopOnce s' = OnceDone
  /\ pendingCallbacks s' = pendingCallbacks s
  /\ callbackPromise s' = callbackPromise s
  /\ trace s' = trace s ++ [EvLock g; EvRegister (nextCallbackID s); EvUnlock g]
  /\ goroutines s'
     = <[g := Code (ret c)]> (goroutines s)
       ++ match callbackLoopOnce s with
          | OnceFresh => [CallbackLoop AtSleep]
          | _ => []
          end.
Proof.
  intros Hl Hmu [Ho|Ho]; unfold NewCallback_steps; rewrite Ho; cbv zeta.
  - rewrite (NewCallback_first_run _ _ _ _ Hl Hmu Ho).
    cbn [goroutines callbacksMu callbacks nextCallbackID callbackLoopOnce
         pendingCallbacks callbackPromise trace].
    split_and!; try done. by eapply lookup_insert_app_here.
  - rewrite (NewCallback_run _ _ _ _ Hl Hmu Ho).
    cbn [goroutines callbacksMu callbacks nextCallbackID callbackLoopOnce
         pendingCallbacks callbackPromise trace].
    split_and!; try done; [by eapply lookup_insert_here|by rewrite app_nil_r].
Qed.

(** The callback [NewCallback] makes for handle [i]. *)
Definition callback_of (i : Z) : Callback :=
  {| id := i; enqueueFn := makeCallbackHelper i |}.

(** [NewCallback] from the lock on. *)
Definition register_body (fn : GoFunc) (ret : Callback -> Prog) : Prog :=
  Lock (LoadNext (fun id => IncNext (MapSet id fn (Unlock
    (ret {| id := id; enqueueFn := makeCallbackHelper id |}))))).

(** How far a call of [NewCallback] is: it has not read the counter, it
    has read handle [i], it has written the entry of handle [i]. *)
Inductive Stage : Type :=
| Waiting
| Holding (i : Z)
| Written (i : Z).

(** The code of a goroutine inside the call [NewCallback fn ret], before
    the call returns. *)
Inductive in_NewCallback (fn : GoFunc) (ret : Callback -> Prog)
    : Stage -> Prog -> Prop :=
| in_do : in_NewCallback fn ret Waiting (NewCallback fn ret)
| in_go :
    in_NewCallback fn ret Waiting
      (GoCallbackLoop (OnceRet (register_body fn ret)))
| in_once_ret :
    in_NewCallback fn ret Waiting (OnceRet (register_body fn ret))
| in_lock : in_NewCallback fn ret Waiting (register_body fn ret)
| in_load :
    in_NewCallback fn ret Waiting
      (LoadNext (fun id => IncNext (MapSet id fn (Unlock
         (ret {| id := id; enqueueFn := makeCallbackHelper id |})))))
| in_inc i :
    in_NewCallback fn ret (Holding i)
      (IncNext (MapSet i fn (Unlock (ret (callback_of i)))))
| in_set i :
    in_NewCallback fn ret (Holding i)
      (MapSet i fn (Unlock (ret (callback_of i))))
| in_unlock i :
    in_NewCallback fn ret (Written i) (Unlock (ret (callback_of i))).

(** Goroutine [g] is inside the call; [before] are the handles given out
    when the call began. *)
Definition call_state (fn : GoFunc) (ret : Callback -> Prog)
    (before : list Z) (g : nat) (s : State) : Prop :=
  exists st p,
    goroutines s !! g = Some (Code p)
    /\ in_NewCallback fn ret st p
    /\ (exists mid, registered (trace s) = before ++ mid)
    /\ match st with
       | Written i =>
           (exists mid, registered (trace s) = before ++ mid ++ [i])
           /\ callbacks s !! i = Some fn
       | _ => True
       end.

(** The call [NewCallback fn ret] that goroutine [g] began in [s] has
    returned in the course of [schedule]: at the unlock, the handle of
    the callback it returns is the one registered last, it was registered
    after the call began, its entry holds [fn], and below the wrap it is
    not 0 and differs from every handle given out before it. *)
Definition returned_fresh (fn : GoFunc) (ret : Callback -> Prog)
    (g : nat) (s : State) (schedule : list Action) : Prop :=
  exists l1 l2 i mid,
    schedule = l1 ++ Sched g :: l2
    /\ goroutines (run l1 s) !! g = Some (Code (Unlock (ret (callback_of i))))
    /\ goroutines (run (l1 ++ [Sched g]) s) !! g
       = Some (Code (ret (callback_of i)))
    /\ registered (trace (run l1 s)) = registered (trace s) ++ mid ++ [i]
    /\ callbacks (run l1 s) !! i = Some fn
    /\ (Z.of_nat (length (registered (trace (run l1 s)))) < 2 ^ 32 ->
        i <> 0 /\ ~ In i (registered (trace s) ++ mid)).

Lemma Inv_unlock_held s g k :
  Inv s -> goroutines s !! g = Some (Code (Unlock k)) ->
  callbacksMu s = Some g.
Proof.
  intros [_ Hgood] Hl. destruct (Hgood _ _ Hl) as (pc & Hat & Hok).
  inversion Hat; subst; simpl in Hok.
  - match goal with H : user_code (Unlock _) |- _ => inversion H end.
  - by destruct Hok.
Qed.

(** A step of a goroutine that does not hold the mutex, while another
    one does, leaves the table alone and registers nothing. *)
Lemma step_not_holder s g g' :
  Inv s -> callbacksMu s = Some g -> g' <> g ->
  registered (trace (step g' s)) = registered (trace s)
  /\ callbacks (step g' s) = callbacks s.
Proof.
  intros HI Hmu Hne.
  assert (Hex : forall p p' s', exec g' p s = Some (p', s') ->
            (goroutines s !! g' = Some (Code p)
             \/ goroutines s !! g' = Some (CallbackLoop (InCall p))) ->
            registered (trace s') = registered (trace s)
            /\ callbacks s' = callbacks s).
  { intros p p' s' He Hl.
    assert (Hnt : ~ touches_registry p).
    { intros Ht.
      assert (callbacksMu s = Some g'); [|congruence].
      destruct Hl as [Hl|Hl];
        [by apply (Inv_registry_held s g' (Code p))
        |by apply (Inv_registry_held s g' (CallbackLoop (InCall p)))]. }
    destruct (exec_exec_effect _ _ _ _ _ He)
      as [_ (evs & Ht & _ & _ & Hr) Hc _].
    split.
    - rewrite Ht, registered_app.
      destruct Hr as [-> | (i & fn & k & -> & _)];
        [by rewrite app_nil_r|by destruct Hnt].
    - by destruct Hc. }
  unfold step. destruct (goroutines s !! g') as [[p|pc]|] eqn:Hg'; [| |done].
  - destruct (exec g' p s) as [[p' s']|] eqn:He; [|done]. simpl. eauto.
  - destruct (callbackLoop g' pc s) as [[pc' s']|] eqn:He; [|done]. simpl.
    destruct pc as [| |cb i|cb i|cb i f| |i f args|body]; simpl in He.
    + destruct (callbackPromise s); [|done]. by injection He as <- <-.
    + destruct (pendingCallbacks s); injection He as <- <-; simpl;
        by rewrite ?registered_app, ?app_nil_r.
    + destruct (callbacksMu s); [done|]. injection He as <- <-. simpl.
      by rewrite registered_app, app_nil_r.
    + by injection He as <- <-.
    + destruct f; injection He as <- <-; simpl;
        by rewrite registered_app, app_nil_r.
    + injection He as <- <-. simpl. by rewrite registered_app, app_nil_r.
    + injection He as <- <-. simpl. by rewrite registered_app, app_nil_r.
    + destruct (Return_dec body) as [->|Hnr]; [by injection He as <- <-|].
      change (callbackLoop g' (InCall body) s = Some (pc', s')) in He.
      rewrite callbackLoop_InCall in He by done.
      destruct (exec g' body s) as [[b s1]|] eqn:Ex; [|done].
      injection He as <- <-. eauto.
Qed.

Lemma act_registered s a :
  exists new, registered (trace (act s a)) = registered (trace s) ++ new.
Proof.
  destruct (act_trace s a) as (evs & ->). rewrite registered_app. by eexists.
Qed.

Lemma call_state_act fn ret before g s a :
  Inv s -> call_state fn ret before g s ->
  call_state fn ret before g (act s a)
  \/ (a = Sched g
      /\ exists i mid,
           goroutines s !! g = Some (Code (Unlock (ret (callback_of i))))
           /\ goroutines (act s a) !! g = Some (Code (ret (callback_of i)))
           /\ registered (trace s) = before ++ mid ++ [i]
           /\ callbacks s !! i = Some fn).
Proof.
  intros HI (st & p & Hg & Hin & (mid & Hmid) & Hst).
  assert (Hgrow : exists mid', registered (trace (act s a)) = before ++ mid').
  { destruct (act_registered s a) as (new & ->). rewrite Hmid, <- app_assoc.
    by eexists. }
  destruct a as [g'|f0 args].
  2:{ left. pose proof (js_call_effect f0 args s) as Hj.
      destruct (js_effect_readers _ _ Hj) as (_ & _ & Hr).
      exists st, p. simpl in *. rewrite (je_goroutines _ _ Hj), Hr.
      split_and!; try done; [by eexists|].
      destruct st; try done. by rewrite (je_callbacks _ _ Hj). }
  destruct (decide (g' = g)) as [-> | Hne].
  2:{ left. exists st, p. simpl in *.
      split_and!; try (by apply step_other); try done.
      destruct st as [| |i]; try done.
      inversion Hin; subst.
      pose proof (Inv_unlock_held _ _ _ HI Hg) as Hmu.
      destruct (step_not_holder s g g' HI Hmu Hne) as [-> ->]. done. }
  assert (Hlt : (g < length (goroutines s))%nat) by (by eapply lookup_lt_Some).
  assert (Hhere : forall l x, (<[g := x]> (goroutines s ++ l)) !! g = Some x).
  { intros l x. apply list_lookup_insert_eq. rewrite length_app. lia. }
  assert (Hhere0 : forall x, (<[g := x]> (goroutines s)) !! g = Some x).
  { intros x. by apply list_lookup_insert_eq. }
  assert (Hstay : call_state fn ret before g s).
  { exists st, p. split_and!; try done. by eexists. }
  simpl in *. unfold step in *. rewrite Hg in *.
  destruct Hin; simpl in *.
  - left. destruct (callbackLoopOnce s); simpl; [|done|].
    + exists Waiting, (GoCallbackLoop (OnceRet (register_body fn ret))).
      simpl in *. split_and!; try done; try apply Hhere0; try constructor.
    + exists Waiting, (register_body fn ret).
      simpl in *. split_and!; try done; try apply Hhere0; try constructor.
  - left. exists Waiting, (OnceRet (register_body fn ret)).
    simpl in *. split_and!; try done; try apply Hhere; try constructor.
  - left. exists Waiting, (register_body fn ret).
    simpl in *. split_and!; try done; try apply Hhere0; try constructor.
  - left. destruct (callbacksMu s); simpl; [done|].
    eexists Waiting, _. simpl in *.
    split_and!; try done; try apply Hhere0; try constructor.
  - left. eexists (Holding (nextCallbackID s)), _. simpl in *.
    split_and!; try done; try apply Hhere0.
    apply (in_inc fn ret (nextCallbackID s)).
  - left. eexists (Holding i), _. simpl in *.
    split_and!; try done; try apply Hhere0; try constructor.
  - left. eexists (Written i), _. simpl in *.
    split_and!; try done; try apply Hhere0.
    + constructor.
    + exists mid. by rewrite registered_app, Hmid, <- app_assoc.
    + apply lookup_insert_eq.
  - right. split; [done|]. destruct Hst as [(mid' & Hmid') Hc].
    exists i, mid'. simpl. split_and!; try done; apply Hhere0.
Qed.

Lemma call_state_run fn ret before g l : forall s,
  Inv s -> call_state fn ret before g s ->
  call_state fn ret before g (run l s)
  \/ exists l1 l2 i mid,
       l = l1 ++ Sched g :: l2
       /\ goroutines (run l1 s) !! g
          = Some (Code (Unlock (ret (callback_of i))))
       /\ goroutines (run (l1 ++ [Sched g]) s) !! g
          = Some (Code (ret (callback_of i)))
       /\ registered (trace (run l1 s)) = before ++ mid ++ [i]
       /\ callbacks (run l1 s) !! i = Some fn.
Proof.
  induction l as [|a l IH]; intros s HI Hc; [by left|].
  destruct (call_state_act _ _ _ _ _ a HI Hc)
    as [Hc' | (-> & i & mid & H1 & H2 & H3 & H4)].
  - destruct (IH _ (act_inv _ a HI) Hc')
      as [? | (l1 & l2 & i & mid & -> & H1 & H2 & H3 & H4)]; [by left|].
    right. exists (a :: l1), l2, i, mid. by split_and!.
  - right. exists [], l, i, mid. by split_and!.
Qed.

(** C2, as the code has it: handles come from a 32-bit counter that
    starts at 1 and is incremented modulo 2^32, so the k-th handle given
    out, in every interleaving, is k mod 2^32.  As long as fewer than 2^32
    handles have been given out, they are pairwise distinct, whether
    released or not, and none of them is 0.  The callback that a call of
    [NewCallback] returns carries the handle which that call registered:
    - run without interruption from a state where the mutex is free, the
      call returns the callback with the counter's value as handle and
      the trampoline for that handle, registers exactly that handle for
      [fn], and below the wrap the handle is not 0 and differs from every
      handle given out before;
    - in every interleaving with the other goroutines and the host, the
      call is still under way or it has returned, and the handle it
      returned was, at its unlock, the handle registered last, after the
      call began, with [fn] as its entry, and below the wrap not 0 and
      different from every handle given out before it. *)
Theorem handles_unique_below_wrap s :
  reachable s ->
  registered (trace s) = handles (length (registered (trace s)))
  /\ (Z.of_nat (length (registered (trace s))) < 2 ^ 32 ->
      NoDup (registered (trace s)) /\ ~ In 0 (registered (trace s)))
  /\ (forall g fn ret,
        goroutines s !! g = Some (Code (NewCallback fn ret)) ->
        callbacksMu s = None ->
        callbackLoopOnce s = OnceFresh \/ callbackLoopOnce s = OnceDone ->
        let s' := run_solo g (NewCallback_steps s) s in
        let c := callback_of (nextCallbackID s) in
        goroutines s' !! g = Some (Code (ret c))
        /\ id c = uint32 (1 + Z.of_nat (length (registered (trace s))))
        /\ registered (trace s') = registered (trace s) ++ [id c]
        /\ callbacks s' !! id c = Some fn
        /\ (Z.of_nat (length (registered (trace s'))) < 2 ^ 32 ->
            id c <> 0 /\ ~ In (id c) (registered (trace s))))
  /\ (forall g fn ret,
        goroutines s !! g = Some (Code (NewCallback fn ret)) ->
        forall schedule,
          (exists st p,
             goroutines (run schedule s) !! g = Some (Code p)
             /\ in_NewCallback fn ret st p)
          \/ returned_fresh fn ret g s schedule).
Proof.
  intros Hr. pose proof (reachable_inv _ Hr) as HI.
  assert (Hfresh : forall s0 pre i,
    reachable s0 -> registered (trace s0) = pre ++ [i] ->
    Z.of_nat (length (registered (trace s0))) < 2 ^ 32 ->
    i <> 0 /\ ~ In i pre).
  { intros s0 pre i Hr0 Hreg Hlt.
    pose proof (reachable_inv _ Hr0) as [G0 _].
    pose proof (inv_handles _ G0) as Hh.
    pose proof (handles_NoDup _ Hlt) as Hnd.
    pose proof (handles_nonzero _ Hlt) as Hnz.
    rewrite <- Hh, Hreg in Hnd, Hnz. split.
    - intros ->. apply Hnz, in_or_app. right. by left.
    - apply NoDup_app in Hnd as (_ & Hd & _). intros Hin.
      apply (Hd i); [by apply list_elem_of_In|by apply list_elem_of_singleton]. }
  destruct HI as [G Hgood]. pose proof (inv_handles _ G) as Hh.
  split_and!.
  - done.
  - intros Hn. rewrite Hh.
    split; [by apply handles_NoDup|by apply handles_nonzero].
  - intros g fn ret Hg Hmu Ho.
    destruct (NewCallback_any_run g s fn ret Hg Hmu Ho)
      as (H1 & _ & H3 & _ & _ & _ & _ & H8 & _).
    cbv zeta. unfold callback_of. cbn [id].
    assert (Hreg : registered (trace (run_solo g (NewCallback_steps s) s))
                   = registered (trace s) ++ [nextCallbackID s]).
    { rewrite H8, registered_app. done. }
    split_and!.
    + done.
    + pose proof (inv_mu_free _ G Hmu) as Hn. unfold next_ok in Hn.
      by rewrite Z.add_0_r in Hn.
    + done.
    + rewrite H3. apply lookup_insert_eq.
    + intros Hlt. eapply Hfresh; [|exact Hreg|done].
      rewrite <- run_repeat_Sched. by apply reachable_run.
  - intros g fn ret Hg schedule.
    assert (Hc : call_state fn ret (registered (trace s)) g s).
    { exists Waiting, (NewCallback fn ret). split_and!; try done.
      - constructor.
      - exists []. by rewrite app_nil_r. }
    destruct (call_state_run fn ret _ g schedule s (conj G Hgood) Hc)
      as [(st & p & Hp & Hin & _) | (l1 & l2 & i & mid & -> & H1 & H2 & H3 & H4)].
    + left. by exists st, p.
    + right. exists l1, l2, i, mid. split_and!; try done.
      intros Hlt. eapply (Hfresh (run l1 s)); [by apply reachable_run| |done].
      by rewrite H3, app_assoc.
Qed.

(** A client that registers [n] callbacks, one after the other. *)
Fixpoint register_n (n : nat) : Prog :=
  match n with
  | O => Return
  | S n => NewCallback (fun _ => Return) (fun _ => register_n n)
  end.

Lemma register_n_user n : user_code (register_n n).
Proof.
  induction n; simpl; constructor; intros; (constructor || done).
Qed.

Lemma register_n_run n : forall g s,
  goroutines s !! g = Some (Code (register_n n)) ->
  callbacksMu s = None ->
  callbackLoopOnce s = OnceDone ->
  length (registered (trace (run_solo g (6 * n) s)))
  = (length (registered (trace s)) + n)%nat.
Proof.
  induction n as [|n IH]; intros g s Hl Hmu Honce.
  - rewrite Nat.mul_0_r, run_solo_0. lia.
  - replace (6 * S n)%nat with (6 + 6 * n)%nat by lia.
    rewrite run_solo_add.
    change (register_n (S n))
      with (NewCallback (fun _ => Return) (fun _ => register_n n)) in Hl.
    rewrite (NewCallback_run _ _ _ _ Hl Hmu Honce).
    rewrite IH; cbn [goroutines callbacksMu callbackLoopOnce trace].
    + rewrite registered_app. cbn. rewrite length_app. simpl. lia.
    + by eapply lookup_insert_here.
    + done.
    + done.
Qed.

(** The number of registrations after which the counter is back at 0. *)
Definition wrap_count : nat := Z.to_nat (2 ^ 32 - 1).

(** The state after one goroutine has registered [2^32] callbacks. *)
Definition wrap_state : State :=
  run (repeat (Sched 0) (8 + 6 * wrap_count))
      (init [register_n (S wrap_count)]).

Lemma wrap_state_registered :
  length (registered (trace wrap_state)) = S wrap_count.
Proof.
  unfold wrap_state. generalize wrap_count. intros n.
  rewrite run_repeat_Sched, run_solo_add.
  assert (Hl : goroutines (init [register_n (S n)]) !! 0%nat
               = Some (Code (NewCallback (fun _ => Return)
                                         (fun _ => register_n n)))) by done.
  rewrite (NewCallback_first_run _ _ _ _ Hl eq_refl eq_refl).
  rewrite register_n_run; cbn [goroutines callbacksMu callbackLoopOnce trace init].
  - done.
  - done.
  - done.
  - done.
Qed.

(** C2, as stated, fails: the handle given out by registration number
    [2^32] is 0. *)
Lemma handle_zero_after_wrap :
  reachable wrap_state /\ In 0 (registered (trace wrap_state)).
Proof.
  assert (Hr : reachable wrap_state).
  { exists [register_n (S wrap_count)], (repeat (Sched 0) (8 + 6 * wrap_count)).
    split; [|done]. constructor; [apply register_n_user|constructor]. }
  split; [done|].
  destruct (reachable_inv _ Hr) as [G _]. rewrite (inv_handles _ G).
  rewrite wrap_state_registered. apply In_handles.
  exists wrap_count. split; [lia|].
  unfold wrap_count. rewrite Z2Nat.id by done. reflexivity.
Qed.

Lemma has_flag_bit flags k :
  0 <= k -> negb (Z.land flags (Z.shiftl 1 k) =? 0) = Z.testbit flags k.
Proof.
  intros Hk. rewrite Z.shiftl_1_l.
  destruct (Z.testbit flags k) eqn:E.
  - apply negb_true_iff, Z.eqb_neq. intros H.
    apply (f_equal (fun z => Z.testbit z k)) in H.
    rewrite Z.land_spec, E, Z.pow2_bits_true, Z.bits_0 in H by lia. done.
  - apply negb_false_iff, Z.eqb_eq. apply Z.bits_inj'. intros n Hn.
    rewrite Z.land_spec, Z.bits_0, Z.pow2_bits_eqb by lia.
    destruct (Z.eqb_spec k n) as [<-|]; [by rewrite E|apply andb_false_r].
Qed.

(** The suppression methods an event callback with [flags] calls on
    event [e], in the order it calls them. *)
Definition effects (flags : EventCallbackFlag) (e : nat) : list Event :=
  (if Z.testbit flags 0 then [EvPreventDefault e] else [])
  ++ (if Z.testbit flags 1 then [EvStopPropagation e] else [])
  ++ (if Z.testbit flags 2 then [EvStopImmediatePropagation e] else []).

Lemma js_event_call a b c i e s :
  js_call (makeEventCallbackHelper a b c (makeCallbackHelper i)) [DomEvent e] s
  = JsOk
      {| callbacksMu := callbacksMu s;
         callbacks := callbacks s;
         nextCallbackID := nextCallbackID s;
         callbackLoopOnce := callbackLoopOnce s;
         pendingCallbacks :=
           pendingCallbacks s ++ [{| cb_id := i; cb_args := [DomEvent e] |}];
         callbackPromise := true;
         goroutines := goroutines s;
         trace := trace s
                  ++ ((if a then [EvPreventDefault e] else [])
                      ++ (if b then [EvStopPropagation e] else [])
                      ++ (if c then [EvStopImmediatePropagation e] else []))
                  ++ [EvPush {| cb_id := i; cb_args := [DomEvent e] |}] |}.
Proof.
  destruct a, b, c; cbn [js_call js_bind js_method hd]; norm_state;
    rewrite <- ?app_assoc; reflexivity.
Qed.

(** C4: the trampoline of an event callback, called with an event,
    calls exactly the suppression methods whose flag bits are set, in the
    order preventDefault, stopPropagation, stopImmediatePropagation, and
    only then queues the record (one record, for the callback's handle,
    with the event as its only argument). *)
Theorem event_effects_before_queue g s flags fn ret :
  goroutines s !! g = Some (Code (NewEventCallback flags fn ret)) ->
  callbacksMu s = None ->
  callbackLoopOnce s = OnceFresh \/ callbackLoopOnce s = OnceDone ->
  exists c,
    goroutines (run_solo g (NewCallback_steps s) s) !! g = Some (Code (ret c))
    /\ forall e s1, exists s2,
         js_call (enqueueFn c) [DomEvent e] s1 = JsOk s2
         /\ trace s2
            = trace s1 ++ effects flags e
              ++ [EvPush {| cb_id := id c; cb_args := [DomEvent e] |}]
         /\ pendingCallbacks s2
            = pendingCallbacks s1
              ++ [{| cb_id := id c; cb_args := [DomEvent e] |}].
Proof.
  intros Hl Hmu Ho. unfold NewEventCallback in Hl.
  destruct (NewCallback_any_run _ _ _ _ Hl Hmu Ho) as (Hg & _).
  eexists. split; [exact Hg|].
  intros e s1. cbn [enqueueFn id]. rewrite js_event_call.
  eexists. split; [reflexivity|]. cbn [trace pendingCallbacks].
  unfold effects, has_flag, PreventDefault, StopPropagation,
    StopImmediatePropagation.
  rewrite !has_flag_bit by lia. by rewrite <- !app_assoc.
Qed.

(** C3: a record whose handle is not in the table when the dispatcher
    looks it up costs five statements of [callbackLoop]: the record is
    taken off the queue, the lookup is made under the mutex, the
    diagnostic is written to the console, no function is called, the
    table is left alone, and the dispatcher stands at the head of its
    inner loop again, ready for the next record. *)
Theorem closed_callback_skipped g s cb rest :
  goroutines s !! g = Some (CallbackLoop AtShift) ->
  pendingCallbacks s = cb :: rest ->
  callbacksMu s = None ->
  callbacks s !! uint32 (cb_id cb) = None ->
  let s' := run_solo g 5 s in
  trace s' = trace s ++ [EvShift cb; EvLock g; EvUnlock g;
                         EvConsoleError "call to closed callback"]
  /\ outcomes (trace s') = outcomes (trace s) ++ [Dropped]
  /\ pendingCallbacks s' = rest
  /\ callbacks s' = callbacks s
  /\ callbacksMu s' = None
  /\ goroutines s' !! g = Some (CallbackLoop AtShift).
Proof.
  intros Hl Hq Hmu Hcb. cbv zeta.
  rewrite (drain_closed_run _ _ _ _ Hl Hq Hmu Hcb).
  cbn [goroutines callbacksMu callbacks pendingCallbacks trace].
  split_and!; try done.
  - by rewrite outcomes_app.
  - by eapply lookup_insert_here.
Qed.

(** C6: [Close] always returns, whatever the table holds: it removes
    the entry of its handle and nothing else; on a handle that is not in
    the table it leaves the table as it is; and a second [Close] of the
    same callback leaves the table as the first one left it. *)
Theorem close_idempotent g s c k :
  goroutines s !! g = Some (Code (Close c (Close c k))) ->
  callbacksMu s = None ->
  callbacks (run_solo g 3 s) = delete (id c) (callbacks s)
  /\ goroutines (run_solo g 3 s) !! g = Some (Code (Close c k))
  /\ (callbacks s !! id c = None -> callbacks (run_solo g 3 s) = callbacks s)
  /\ callbacks (run_solo g 6 s) = callbacks (run_solo g 3 s)
  /\ goroutines (run_solo g 6 s) !! g = Some (Code k).
Proof.
  intros Hl Hmu.
  change 6%nat with (3 + 3)%nat. rewrite run_solo_add.
  rewrite (Close_run _ _ _ _ Hl Hmu).
  assert (Hl' : <[g := Code (Close c k)]> (goroutines s) !! g
                = Some (Code (Close c k))) by (by eapply lookup_insert_here).
  erewrite Close_run; [|cbn [goroutines]; exact Hl'|reflexivity].
  cbn [goroutines callbacksMu callbacks].
  split_and!; try done.
  - apply delete_id.
  - apply delete_delete_eq.
  - by eapply lookup_insert_here.
Qed.

(** The state in which a program with one goroutine is about to make
    its first registration. *)
Definition first_register : State :=
  init [NewCallback (fun _ => Return) (fun _ => Return)].

(** C8, as stated, fails: the first [NewCallback] also starts the
    dispatcher; it changes the one-shot guard and adds a goroutine. *)
Lemma first_register_starts_dispatcher :
  callbackLoopOnce (run_solo 0 8 first_register) = OnceDone
  /\ callbackLoopOnce first_register = OnceFresh
  /\ goroutines (run_solo 0 8 first_register)
     = [Code Return; CallbackLoop AtSleep]
  /\ goroutines first_register
     = [Code (NewCallback (fun _ => Return) (fun _ => Return))].
Proof. by vm_compute. Qed.

(** C8, as the code has it: [NewCallback] changes the counter, adds the
    one table entry and leaves every other entry, the queue and the wake
    signal alone; apart from that it only makes sure the dispatcher is
    started, which adds the [callbackLoop] goroutine when the call is the
    first one and no goroutine otherwise.  [Close] removes the entry of
    its handle and changes nothing else.  Neither calls a registered
    function or writes a diagnostic. *)
Theorem registry_frame g s :
  callbacksMu s = None ->
  (forall fn ret,
     goroutines s !! g = Some (Code (NewCallback fn ret)) ->
     callbackLoopOnce s = OnceFresh \/ callbackLoopOnce s = OnceDone ->
     let s' := run_solo g (NewCallback_steps s) s in
     callbacks s' = <[nextCallbackID s := fn]> (callbacks s)
     /\ (forall j, j <> nextCallbackID s -> callbacks s' !! j = callbacks s !! j)
     /\ nextCallbackID s' = uint32 (nextCallbackID s + 1)
     /\ pendingCallbacks s' = pendingCallbacks s
     /\ callbackPromise s' = callbackPromise s
     /\ callbacksMu s' = None
     /\ outcomes (trace s') = outcomes (trace s)
     /\ callbackLoopOnce s' = OnceDone
     /\ (forall j, j <> g -> (j < length (goroutines s))%nat ->
                   goroutines s' !! j = goroutines s !! j)
     /\ length (goroutines s')
        = (length (goroutines s)
           + match callbackLoopOnce s with OnceFresh => 1 | _ => 0 end)%nat)
  /\ (forall c k,
        goroutines s !! g = Some (Code (Close c k)) ->
        let s' := run_solo g 3 s in
        callbacks s' = delete (id c) (callbacks s)
        /\ (forall j, j <> id c -> callbacks s' !! j = callbacks s !! j)
        /\ nextCallbackID s' = nextCallbackID s
        /\ pendingCallbacks s' = pendingCallbacks s
        /\ callbackPromise s' = callbackPromise s
        /\ callbacksMu s' = None
        /\ outcomes (trace s') = outcomes (trace s)
        /\ callbackLoopOnce s' = callbackLoopOnce s
        /\ goroutines s' = <[g := Code k]> (goroutines s)).
Proof.
  intros Hmu. split.
  - intros fn ret Hl Ho. cbv zeta.
    destruct (NewCallback_any_run _ _ _ _ Hl Hmu Ho)
      as (Hg & Hmu' & Hcb & Hn & Ho' & Hq & Hp & Ht & Hgs).
    rewrite Hcb, Hn, Hq, Hp, Hmu', Ho', Ht, Hgs.
    split_and!; try done.
    + intros j Hj. by rewrite lookup_insert_ne.
    + by rewrite outcomes_app, app_nil_r.
    + intros j Hj Hlt. rewrite lookup_app_l by (by rewrite length_insert).
      by rewrite list_lookup_insert_ne.
    + rewrite length_app, length_insert. by destruct Ho as [-> | ->].
  - intros c k Hl. cbv zeta. rewrite (Close_run _ _ _ _ Hl Hmu).
    cbn [goroutines callbacksMu callbacks nextCallbackID callbackLoopOnce
         pendingCallbacks callbackPromise trace].
    split_and!; try done.
    + intros j Hj. by rewrite lookup_delete_ne.
    + by rewrite outcomes_app, app_nil_r.
Qed.

Lemma js_event_call_any a b c i args s :
  exists new,
    pendingCallbacks
      (js_state (js_call (makeEventCallbackHelper a b c (makeCallbackHelper i))
                         args s))
    = pendingCallbacks s ++ new
    /\ Forall (fun cb => cb_id cb = i /\ cb_args cb = [hd Undefined args]) new.
Proof.
  assert (Hno : exists new,
    pendingCallbacks s = pendingCallbacks s ++ new
    /\ Forall (fun cb => cb_id cb = i /\ cb_args cb = [hd Undefined args]) new).
  { exists []. by rewrite app_nil_r. }
  destruct a, b, c, (hd Undefined args) eqn:E;
    cbn [js_call js_bind js_method js_state]; rewrite ?E;
    cbn [js_call js_bind js_method js_state]; norm_state;
    first [ exact Hno
          | exists [{| cb_id := i; cb_args := [hd Undefined args] |}];
            rewrite E; split; [reflexivity|by repeat constructor] ].
Qed.

(** C9: the function [NewEventCallback] registers reads [args[0]]
    without a length check.  Every record its trampoline queues, whatever
    the host passes, has exactly one argument, so for these records the
    read is in bounds and the event function gets that argument; on a
    record with no arguments the read panics, and the dispatcher that
    calls the function stops there for good. *)
Theorem event_args_index fn :
  (forall a b c i args s, exists new,
     pendingCallbacks
       (js_state (js_call (makeEventCallbackHelper a b c (makeCallbackHelper i))
                          args s))
     = pendingCallbacks s ++ new
     /\ Forall (fun cb => length (cb_args cb) = 1%nat
                          /\ event_wrapper fn (cb_args cb)
                             = fn (hd Undefined args)) new)
  /\ event_wrapper fn [] = Panic "index out of range"
  /\ (forall g s i rest,
        goroutines s !! g = Some (CallbackLoop AtShift) ->
        pendingCallbacks s = {| cb_id := i; cb_args := [] |} :: rest ->
        callbacksMu s = None ->
        callbacks s !! uint32 i = Some (event_wrapper fn) ->
        goroutines (run_solo g 5 s) !! g
        = Some (CallbackLoop (InCall (Panic "index out of range")))
        /\ forall n, run_solo g n (run_solo g 5 s) = run_solo g 5 s).
Proof.
  split_and!.
  - intros a b c i args s.
    destruct (js_event_call_any a b c i args s) as (new & Hq & Hnew).
    exists new. split; [done|]. eapply Forall_impl; [exact Hnew|].
    intros cb [_ ->]. done.
  - done.
  - intros g s i rest Hl Hq Hmu Hcb.
    rewrite (drain_call_run _ _ _ _ _ Hl Hq Hmu Hcb).
    cbn [goroutines cb_args event_wrapper].
    assert (Hl' : <[g := CallbackLoop (InCall (Panic "index out of range"))]>
                    (goroutines s) !! g
                  = Some (CallbackLoop (InCall (Panic "index out of range"))))
      by (by eapply lookup_insert_here).
    split; [done|].
    match goal with
    | |- forall n, run_solo g n ?X = _ =>
        assert (Hst : step g X = X)
          by (unfold step; cbn [goroutines]; rewrite Hl'; reflexivity)
    end.
    induction n as [|n IH]; [done|]. by rewrite run_solo_S, Hst.
Qed.


(* --------------------------------------------------------------------- *)
(** *** The theorems at concrete inputs *)
(* --------------------------------------------------------------------- *)

(** A client that registers a callback and has its trampoline called
    three times. *)
Definition demo_main : Prog :=
  NewCallback (fun _ => Return) (fun c =>
  Invoke (enqueueFn c) [Number 1]
  (Invoke (enqueueFn c) [Number 2]
  (Invoke (enqueueFn c) [Number 3]
   Return))).

(** The dispatcher has handled the first record and holds the second. *)
Definition demo_state : State :=
  run (repeat (Sched 0) 11 ++ repeat (Sched 1) 9) (init [demo_main]).

Lemma demo_reachable : reachable demo_state.
Proof.
  exists [demo_main], (repeat (Sched 0) 11 ++ repeat (Sched 1) 9).
  split; [|reflexivity].
  constructor; [|constructor].
  apply uc_new; intros; repeat constructor.
Defined.

Lemma dispatcher_started_once_witness :
  reachable demo_state
  /\ (dispatchers (goroutines demo_state) <= 1)%nat
  /\ (registered (trace demo_state) <> [] ->
      callbackLoopOnce demo_state = OnceDone).
Proof.
  split; [exact demo_reachable|].
  destruct (dispatcher_started_once demo_state demo_reachable)
    as (H1 & _ & _ & H4 & _).
  exact (conj H1 H4).
Defined.




Lemma lock_free_during_call_witness :
  reachable demo_state
  /\ forall g, callbacksMu demo_state = Some g -> can_step g demo_state.
Proof.
  split; [exact demo_reachable|].
  destruct (lock_free_during_call demo_state demo_reachable)
    as (_ & _ & _ & H).
  exact H.
Defined.

(** A client that registers two callbacks and calls the trampoline of
    the second one. *)
Definition pair_main : Prog :=
  NewCallback (fun _ => Return) (fun _ =>
  NewCallback (fun _ => Return) (fun c =>
  Invoke (enqueueFn c) [] Return)).

(** Two goroutines have registered one callback each; the first one is
    about to register another. *)
Definition pair_state : State :=
  run (repeat (Sched 0) 8 ++ repeat (Sched 1) 6)
      (init [pair_main; NewCallback (fun _ => Return) (fun _ => Return)]).

Lemma pair_reachable : reachable pair_state.
Proof.
  exists [pair_main; NewCallback (fun _ => Return) (fun _ => Return)],
         (repeat (Sched 0) 8 ++ repeat (Sched 1) 6).
  split; [|reflexivity].
  repeat constructor.
Defined.

Lemma handles_unique_below_wrap_witness :
  reachable pair_state
  /\ registered (trace pair_state) = [1; 2]
  /\ nextCallbackID pair_state = 3
  /\ callbacksMu pair_state = None
  /\ NoDup (registered (trace pair_state))
  /\ ~ In 0 (registered (trace pair_state))
  /\ (let s' := run_solo 0 (NewCallback_steps pair_state) pair_state in
      let c := callback_of (nextCallbackID pair_state) in
      goroutines s' !! 0%nat = Some (Code (Invoke (enqueueFn c) [] Return))
      /\ registered (trace s') = registered (trace pair_state) ++ [id c]
      /\ id c <> 0
      /\ ~ In (id c) (registered (trace pair_state))).
Proof.
  assert (Hreg : registered (trace pair_state) = [1; 2])
    by (vm_compute; reflexivity).
  assert (Hn : nextCallbackID pair_state = 3) by (vm_compute; reflexivity).
  assert (Hlt : Z.of_nat (length (registered (trace pair_state))) < 2 ^ 32)
    by (vm_compute; reflexivity).
  assert (Hg : goroutines pair_state !! 0%nat
               = Some (Code (NewCallback (fun _ => Return)
                               (fun c => Invoke (enqueueFn c) [] Return))))
    by (vm_compute; reflexivity).
  assert (Hmu : callbacksMu pair_state = None) by (vm_compute; reflexivity).
  assert (Ho : callbackLoopOnce pair_state = OnceFresh
               \/ callbackLoopOnce pair_state = OnceDone)
    by (right; vm_compute; reflexivity).
  destruct (handles_unique_below_wrap pair_state pair_reachable)
    as (_ & Hnd & Hsolo & _).
  destruct (Hnd Hlt) as [H1 H2].
  destruct (Hsolo 0%nat _ _ Hg Hmu Ho) as (H3 & _ & H5 & _ & H7).
  assert (Hlt' : Z.of_nat (length (registered (trace
                   (run_solo 0 (NewCallback_steps pair_state) pair_state))))
                 < 2 ^ 32)
    by (rewrite H5, Hreg; vm_compute; reflexivity).
  destruct (H7 Hlt') as [H8 H9].
  exact (conj pair_reachable (conj Hreg (conj Hn (conj Hmu (conj H1 (conj H2
          (conj H3 (conj H5 (conj H8 H9))))))))).
Defined.

(** A client that registers a callback, has its trampoline called once
    and closes the callback before the dispatcher wakes. *)
Definition closed_main : Prog :=
  NewCallback (fun _ => Return) (fun c =>
  Invoke (enqueueFn c) [Number 7]
  (Close c
   Return)).

(** The dispatcher has woken up and is about to take the record. *)
Definition closed_state : State :=
  run (repeat (Sched 0) 12 ++ [Sched 1]) (init [closed_main]).

Lemma closed_callback_skipped_witness :
  goroutines closed_state !! 1%nat = Some (CallbackLoop AtShift)
  /\ pendingCallbacks closed_state
     = [{| cb_id := 1; cb_args := [Number 7] |}]
  /\ callbacksMu closed_state = None
  /\ callbacks closed_state !! uint32 1 = None
  /\ outcomes (trace (run_solo 1 5 closed_state))
     = outcomes (trace closed_state) ++ [Dropped]
  /\ goroutines (run_solo 1 5 closed_state) !! 1%nat
     = Some (CallbackLoop AtShift).
Proof.
  assert (H1 : goroutines closed_state !! 1%nat = Some (CallbackLoop AtShift))
    by (vm_compute; reflexivity).
  assert (H2 : pendingCallbacks closed_state
               = [{| cb_id := 1; cb_args := [Number 7] |}])
    by (vm_compute; reflexivity).
  assert (H3 : callbacksMu closed_state = None) by (vm_compute; reflexivity).
  assert (H4 : callbacks closed_state
                 !! uint32 (cb_id {| cb_id := 1; cb_args := [Number 7] |})
               = None) by (vm_compute; reflexivity).
  destruct (closed_callback_skipped 1 closed_state _ _ H1 H2 H3 H4)
    as (_ & Ho & _ & _ & _ & Hg).
  exact (conj H1 (conj H2 (conj H3 (conj H4 (conj Ho Hg))))).
Defined.

(** A client about to register an event callback that prevents the
    default action and stops immediate propagation. *)
Definition event_state : State :=
  init [NewEventCallback 5 (fun _ => Return) (fun _ => Return)].

Lemma event_effects_before_queue_witness :
  goroutines event_state !! 0%nat
  = Some (Code (NewEventCallback 5 (fun _ => Return) (fun _ => Return)))
  /\ callbacksMu event_state = None
  /\ (callbackLoopOnce event_state = OnceFresh
      \/ callbackLoopOnce event_state = OnceDone)
  /\ exists c, forall e s1, exists s2,
       js_call (enqueueFn c) [DomEvent e] s1 = JsOk s2
       /\ trace s2
          = trace s1 ++ effects 5 e
            ++ [EvPush {| cb_id := id c; cb_args := [DomEvent e] |}].
Proof.
  split_and!; [reflexivity|reflexivity|left; reflexivity|].
  destruct (event_effects_before_queue 0 event_state 5
              (fun _ => Return) (fun _ => Return)
              eq_refl eq_refl (or_introl eq_refl)) as (c & _ & H).
  exists c. intros e s1. destruct (H e s1) as (s2 & E & Ht & _).
  exists s2. exact (conj E Ht).
Defined.

(** A client about to close its callback twice. *)
Definition close_twice_state : State :=
  run (repeat (Sched 0) 8)
      (init [NewCallback (fun _ => Return)
                         (fun c => Close c (Close c Return))]).

Lemma close_idempotent_witness :
  goroutines close_twice_state !! 0%nat
  = Some (Code (Close {| id := 1; enqueueFn := makeCallbackHelper 1 |}
               (Close {| id := 1; enqueueFn := makeCallbackHelper 1 |}
                      Return)))
  /\ callbacksMu close_twice_state = None
  /\ callbacks (run_solo 0 6 close_twice_state)
     = callbacks (run_solo 0 3 close_twice_state)
  /\ goroutines (run_solo 0 6 close_twice_state) !! 0%nat = Some (Code Return).
Proof.
  assert (H1 : goroutines close_twice_state !! 0%nat
    = Some (Code (Close {| id := 1; enqueueFn := makeCallbackHelper 1 |}
                 (Close {| id := 1; enqueueFn := makeCallbackHelper 1 |}
                        Return)))) by (vm_compute; reflexivity).
  assert (H2 : callbacksMu close_twice_state = None)
    by (vm_compute; reflexivity).
  destruct (close_idempotent 0 close_twice_state _ Return H1 H2)
    as (_ & _ & _ & Hc & Hg).
  exact (conj H1 (conj H2 (conj Hc Hg))).
Defined.

Lemma registry_frame_witness :
  callbacksMu first_register = None
  /\ nextCallbackID (run_solo 0 (NewCallback_steps first_register)
                              first_register)
     = uint32 (nextCallbackID first_register + 1).
Proof.
  split; [reflexivity|].
  destruct (registry_frame 0 first_register eq_refl) as [H _].
  destruct (H (fun _ => Return) (fun _ => Return) eq_refl (or_introl eq_refl))
    as (_ & _ & Hn & _).
  exact Hn.
Defined.


Lemma event_args_index_witness :
  event_wrapper (fun _ => Return) [] = Panic "index out of range".
Proof. exact (proj1 (proj2 (event_args_index (fun _ => Return)))). Defined.

(* ===================================================================== *)
(** ** Further properties *)
(* ===================================================================== *)


(** The slice that [callbackLoop] builds from the JavaScript [arguments]
    object, element by element, is the argument list itself: same
    length, same values, same order. *)
Theorem args_slice_is_arguments (argsObj : list Value) :
  copy_args argsObj = argsObj
  /\ length (copy_args argsObj) = length argsObj.
Proof. by rewrite copy_args_eq. Qed.

(** One iteration of the inner loop of [callbackLoop] on a record whose
    handle is in the table: the record is taken off the front of the
    queue, the lookup is made under the mutex, the mutex is released, and
    the function found is called with the arguments of the record. *)
Theorem registered_callback_called g s cb rest (f : GoFunc) :
  goroutines s !! g = Some (CallbackLoop AtShift) ->
  pendingCallbacks s = cb :: rest ->
  callbacksMu s = None ->
  callbacks s !! uint32 (cb_id cb) = Some f ->
  let s' := run_solo g 5 s in
  trace s' = trace s ++ [EvShift cb; EvLock g; EvUnlock g;
                         EvCall (uint32 (cb_id cb)) (cb_args cb)]
  /\ goroutines s' !! g = Some (CallbackLoop (InCall (f (cb_args cb))))
  /\ pendingCallbacks s' = rest
  /\ callbacks s' = callbacks s
  /\ callbacksMu s' = None.
Proof.
  intros Hl Hq Hmu Hcb. cbv zeta.
  rewrite (drain_call_run _ _ _ _ _ Hl Hq Hmu Hcb).
  cbn [goroutines callbacksMu callbacks pendingCallbacks trace].
  split_and!; try done. by eapply lookup_insert_here.
Qed.

(** The dispatcher has woken up and is about to take the first of the
    three records of [demo_main]. *)
Definition demo_awake : State :=
  run (repeat (Sched 0) 11 ++ [Sched 1]) (init [demo_main]).

Lemma registered_callback_called_witness :
  goroutines demo_awake !! 1%nat = Some (CallbackLoop AtShift)
  /\ callbacksMu demo_awake = None
  /\ trace (run_solo 1 5 demo_awake)
     = trace demo_awake
       ++ [EvShift {| cb_id := 1; cb_args := [Number 1] |};
           EvLock 1; EvUnlock 1; EvCall 1 [Number 1]].
Proof.
  assert (H1 : goroutines demo_awake !! 1%nat = Some (CallbackLoop AtShift))
    by (vm_compute; reflexivity).
  assert (H2 : pendingCallbacks demo_awake
               = {| cb_id := 1; cb_args := [Number 1] |}
                 :: [{| cb_id := 1; cb_args := [Number 2] |};
                     {| cb_id := 1; cb_args := [Number 3] |}])
    by (vm_compute; reflexivity).
  assert (H3 : callbacksMu demo_awake = None) by (vm_compute; reflexivity).
  assert (H4 : callbacks demo_awake
                 !! uint32 (cb_id {| cb_id := 1; cb_args := [Number 1] |})
               = Some (fun _ => Return)) by (vm_compute; reflexivity).
  destruct (registered_callback_called 1 demo_awake _ _ _ H1 H2 H3 H4)
    as (Ht & _).
  exact (conj H1 (conj H3 Ht)).
Defined.

(** The trampoline of an event callback on a value that is not an event
    object: with a flag set, the first suppression call throws and the
    state is untouched, so nothing is queued and the dispatcher is not
    woken; with no flag set, the value is queued like any event. *)
Theorem event_trampoline_without_event a b c fn args s :
  (forall e, hd Undefined args <> DomEvent e) ->
  (a || b || c = true ->
   js_call (makeEventCallbackHelper a b c fn) args s = JsThrow s)
  /\ (a || b || c = false ->
      js_call (makeEventCallbackHelper a b c fn) args s
      = js_call fn [hd Undefined args] s).
Proof.
  intros Hne.
  destruct (hd Undefined args) as [|n|e] eqn:E; [| |by destruct (Hne e)];
    destruct a, b, c; cbn [js_call js_bind js_method orb]; rewrite ?E;
    cbn [js_call js_bind js_method]; split; intros; try done.
Qed.

Lemma event_trampoline_without_event_witness :
  (forall e, hd Undefined [Number 3] <> DomEvent e)
  /\ forall s,
       js_call (makeEventCallbackHelper true false false (makeCallbackHelper 1))
               [Number 3] s
       = JsThrow s.
Proof.
  assert (H : forall e, hd Undefined [Number 3] <> DomEvent e)
    by (intros e; discriminate).
  split; [exact H|]. intros s.
  exact (proj1 (event_trampoline_without_event true false false
                  (makeCallbackHelper 1) [Number 3] s H) eq_refl).
Defined.

(** The dispatcher stays inside the function it is running, the records
    taken off the queue and the outcomes stay as they are, and the queue
    only grows. *)
Definition still_running (g : nat) (s s' : State) : Prop :=
  (exists body, goroutines s' !! g = Some (CallbackLoop (InCall body)))
  /\ shifted (trace s') = shifted (trace s)
  /\ outcomes (trace s') = outcomes (trace s)
  /\ exists new, pendingCallbacks s' = pendingCallbacks s ++ new.

Lemma still_running_act s0 s g a :
  Inv s -> still_running g s0 s ->
  still_running g s0 (act s a)
  \/ (a = Sched g
      /\ goroutines s !! g = Some (CallbackLoop (InCall Return))).
Proof.
  intros HI ((body & Hg) & Hs & Ho & (new & Hq)).
  assert (Heff : forall p s', exec_effect p s s' ->
            shifted (trace s') = shifted (trace s0)
            /\ outcomes (trace s') = outcomes (trace s0)
            /\ exists new', pendingCallbacks s' = pendingCallbacks s0 ++ new').
  { intros p s' [_ (evs & Ht & Hsh & Hou & _) _ (new' & Hq')].
    rewrite Ht, shifted_app, outcomes_app, Hsh, Hou, !app_nil_r, Hq', Hq.
    split_and!; try done. rewrite <- app_assoc. by eexists. }
  destruct a as [g'|f0 args].
  2:{ left. pose proof (js_call_effect f0 args s) as Hj.
      destruct (js_effect_readers _ _ Hj) as (Hs' & Ho' & _).
      destruct (je_trace _ _ Hj) as (evs & _ & Hq' & _).
      simpl. split_and!.
      - exists body. by rewrite (je_goroutines _ _ Hj).
      - congruence.
      - congruence.
      - rewrite Hq', Hq, <- app_assoc. by eexists. }
  destruct (decide (g' = g)) as [-> | Hne]; simpl.
  - destruct (Return_dec body) as [-> | Hnr]; [by right|]. left.
    unfold step. rewrite Hg, callbackLoop_InCall by done.
    destruct (exec g body s) as [[body' s']|] eqn:He.
    + pose proof (exec_exec_effect _ _ _ _ _ He) as Hee.
      destruct (ee_goroutines _ _ _ Hee) as [l Hl].
      assert (Hhere : goroutines (set_goroutines
               (<[g := CallbackLoop (InCall body')]> (goroutines s')) s') !! g
               = Some (CallbackLoop (InCall body'))).
      { simpl. apply list_lookup_insert_eq. rewrite Hl, length_app.
        apply lookup_lt_Some in Hg. lia. }
      split; [by eexists|]. simpl. eapply Heff; exact Hee.
    + split_and!; try done; by eexists.
  - left. split; [exists body; by apply step_other|].
    unfold step.
    destruct (goroutines s !! g') as [gr|] eqn:Hg';
      [|split_and!; try done; by eexists].
    destruct (Inv_other_is_code _ _ _ _ _ HI Hg Hne Hg') as (p & ->).
    destruct (exec g' p s) as [[p' s']|] eqn:He;
      [|split_and!; try done; by eexists].
    simpl. eapply (Heff p). by eapply exec_exec_effect.
Qed.

Lemma still_running_run s0 g l : forall s1,
  Inv s1 -> still_running g s0 s1 ->
  still_running g s0 (run l s1)
  \/ exists l1 l2,
       l = l1 ++ Sched g :: l2
       /\ still_running g s0 (run l1 s1)
       /\ goroutines (run l1 s1) !! g = Some (CallbackLoop (InCall Return)).
Proof.
  induction l as [|a l IH]; intros s1 HI H0; [by left|].
  destruct (still_running_act s0 s1 g a HI H0) as [H1 | [-> H1]].
  - destruct (IH _ (act_inv _ a HI) H1) as [? | (l1 & l2 & -> & H2 & H3)];
      [by left|].
    right. by exists (a :: l1), l2.
  - right. by exists [], l.
Qed.

(** Callbacks do not overlap, and a callback that does not return holds
    the others up.  From a reachable state in which the dispatcher is
    inside a registered function, whatever the goroutines and the host do
    next: as long as the dispatcher has not been scheduled at the end of
    that function, it is still inside it, no further record has left the
    queue, no further outcome has been made, and the records pushed
    meanwhile wait at the back of the queue. *)
Theorem next_callback_waits_for_return s g body :
  reachable s ->
  goroutines s !! g = Some (CallbackLoop (InCall body)) ->
  forall schedule,
    still_running g s (run schedule s)
    \/ exists l1 l2,
         schedule = l1 ++ Sched g :: l2
         /\ still_running g s (run l1 s)
         /\ goroutines (run l1 s) !! g = Some (CallbackLoop (InCall Return)).
Proof.
  intros Hr Hg schedule.
  apply still_running_run; [by apply reachable_inv|].
  split_and!; try done; [by eexists|]. exists []. by rewrite app_nil_r.
Qed.

(** A client whose callback closes the callback itself; the host has
    called it twice. *)
Definition busy_main : Prog :=
  NewCallback
    (fun _ => Close {| id := 1; enqueueFn := makeCallbackHelper 1 |} Return)
    (fun c =>
  Invoke (enqueueFn c) [] (Invoke (enqueueFn c) [] Return)).

(** The dispatcher is inside the first call of the callback. *)
Definition busy_state : State :=
  run (repeat (Sched 0) 10 ++ repeat (Sched 1) 6) (init [busy_main]).

Lemma busy_reachable : reachable busy_state.
Proof.
  exists [busy_main], (repeat (Sched 0) 10 ++ repeat (Sched 1) 6).
  split; [|reflexivity].
  constructor; [|constructor].
  apply uc_new; intros; repeat constructor.
Defined.

Lemma next_callback_waits_for_return_witness :
  reachable busy_state
  /\ goroutines busy_state !! 1%nat
     = Some (CallbackLoop
               (InCall (Close {| id := 1; enqueueFn := makeCallbackHelper 1 |}
                              Return)))
  /\ pendingCallbacks busy_state = [{| cb_id := 1; cb_args := [] |}]
  /\ (let schedule := [Sched 1; HostCall (makeCallbackHelper 1) []; Sched 1] in
      still_running 1 busy_state (run schedule busy_state)
      \/ exists l1 l2,
           schedule = l1 ++ Sched 1 :: l2
           /\ still_running 1 busy_state (run l1 busy_state)
           /\ goroutines (run l1 busy_state) !! 1%nat
              = Some (CallbackLoop (InCall Return))).
Proof.
  assert (H1 : goroutines busy_state !! 1%nat
               = Some (CallbackLoop
                         (InCall (Close {| id := 1;
                                           enqueueFn := makeCallbackHelper 1 |}
                                        Return))))
    by (vm_compute; reflexivity).
  assert (H2 : pendingCallbacks busy_state = [{| cb_id := 1; cb_args := [] |}])
    by (vm_compute; reflexivity).
  split; [exact busy_reachable|]. split; [exact H1|]. split; [exact H2|].
  exact (next_callback_waits_for_return busy_state 1 _ busy_reachable H1
           [Sched 1; HostCall (makeCallbackHelper 1) []; Sched 1]).
Defined.

(** Register, call, dispatch: a function registered with [NewCallback]
    is the function the dispatcher calls for a record queued by the
    trampoline that [NewCallback] returned, and it gets the arguments the
    host passed to the trampoline. *)
Theorem register_invoke_dispatch g d s (fn : GoFunc) ret args :
  goroutines s !! g = Some (Code (NewCallback fn ret)) ->
  goroutines s !! d = Some (CallbackLoop AtShift) ->
  callbacksMu s = None ->
  callbackLoopOnce s = OnceDone ->
  pendingCallbacks s = [] ->
  0 <= nextCallbackID s < 2 ^ 32 ->
  let c := {| id := nextCallbackID s;
              enqueueFn := makeCallbackHelper (nextCallbackID s) |} in
  let s1 := run_solo g 6 s in
  let s2 := js_state (js_call (enqueueFn c) args s1) in
  let s3 := run_solo d 5 s2 in
  goroutines s1 !! g = Some (Code (ret c))
  /\ goroutines s3 !! d = Some (CallbackLoop (InCall (fn args)))
  /\ outcomes (trace s3) = outcomes (trace s) ++ [Delivered (id c) args]
  /\ pendingCallbacks s3 = [].
Proof.
  intros Hg Hd Hmu Ho Hq Hr. cbv zeta.
  assert (Hne : d <> g) by (intros ->; congruence).
  rewrite (NewCallback_run _ _ _ _ Hg Hmu Ho).
  cbn [enqueueFn id js_call js_state]. norm_state. rewrite Hq.
  split; [by eapply lookup_insert_here|].
  erewrite (drain_call_run d _ {| cb_id := nextCallbackID s; cb_args := args |}
              [] fn);
    cbn [goroutines pendingCallbacks callbacksMu callbacks trace cb_id cb_args].
  - split_and!.
    + by eapply lookup_insert_here; rewrite list_lookup_insert_ne.
    + rewrite uint32_small by done.
      rewrite !outcomes_app. cbn. by rewrite !app_nil_r.
    + done.
  - by rewrite list_lookup_insert_ne.
  - done.
  - done.
  - rewrite uint32_small by done. apply lookup_insert_eq.
Qed.

(** A second goroutine registers a callback while the dispatcher of the
    first registration is awake and the queue is empty. *)
Definition second_register : State :=
  run (repeat (Sched 0) 8 ++ [HostCall (makeCallbackHelper 9) []; Sched 1;
       Sched 1; Sched 1; Sched 1; Sched 1; Sched 1])
      (init [NewCallback (fun _ => Return)
                         (fun _ => NewCallback (fun _ => Return)
                                               (fun _ => Return))]).

Lemma register_invoke_dispatch_witness :
  goroutines second_register !! 1%nat = Some (CallbackLoop AtShift)
  /\ pendingCallbacks second_register = []
  /\ outcomes (trace (run_solo 1 5
       (js_state (js_call (makeCallbackHelper 2) [Number 4]
                          (run_solo 0 6 second_register)))))
     = outcomes (trace second_register) ++ [Delivered 2 [Number 4]].
Proof.
  assert (H1 : goroutines second_register !! 0%nat
               = Some (Code (NewCallback (fun _ => Return) (fun _ => Return))))
    by (vm_compute; reflexivity).
  assert (H2 : goroutines second_register !! 1%nat
               = Some (CallbackLoop AtShift)) by (vm_compute; reflexivity).
  assert (H3 : callbacksMu second_register = None)
    by (vm_compute; reflexivity).
  assert (H4 : callbackLoopOnce second_register = OnceDone)
    by (vm_compute; reflexivity).
  assert (H5 : pendingCallbacks second_register = [])
    by (vm_compute; reflexivity).
  assert (H6 : 0 <= nextCallbackID second_register < 2 ^ 32)
    by (vm_compute; split; [discriminate|reflexivity]).
  destruct (register_invoke_dispatch 0 1 second_register (fun _ => Return)
              (fun _ => Return) [Number 4] H1 H2 H3 H4 H5 H6)
    as (_ & _ & Ho & _).
  exact (conj H2 (conj H5 Ho)).
Defined.

(** Register an event callback, call its trampoline with an event,
    dispatch: the suppression methods the flags ask for have been called
    on the event, in order, before the record is queued, and so before
    the dispatcher calls the event function, which gets that event. *)
Theorem event_register_invoke_dispatch g d s flags fn ret e :
  goroutines s !! g = Some (Code (NewEventCallback flags fn ret)) ->
  goroutines s !! d = Some (CallbackLoop AtShift) ->
  callbacksMu s = None ->
  callbackLoopOnce s = OnceDone ->
  pendingCallbacks s = [] ->
  0 <= nextCallbackID s < 2 ^ 32 ->
  exists c,
    goroutines (run_solo g 6 s) !! g = Some (Code (ret c))
    /\ let s2 := js_state (js_call (enqueueFn c) [DomEvent e] (run_solo g 6 s)) in
       let s3 := run_solo d 5 s2 in
       let r := {| cb_id := id c; cb_args := [DomEvent e] |} in
       goroutines s3 !! d = Some (CallbackLoop (InCall (fn (DomEvent e))))
       /\ trace s3
          = trace s ++ [EvLock g; EvRegister (id c); EvUnlock g]
            ++ effects flags e
            ++ [EvPush r; EvShift r; EvLock d; EvUnlock d;
                EvCall (id c) [DomEvent e]].
Proof.
  intros Hg Hd Hmu Ho Hq Hr. unfold NewEventCallback in Hg.
  assert (Hne : d <> g) by (intros ->; congruence).
  rewrite (NewCallback_run _ _ _ _ Hg Hmu Ho). cbn [goroutines].
  eexists. split; [by eapply lookup_insert_here|].
  cbv zeta. cbn [enqueueFn id]. rewrite js_event_call.
  cbn [js_state]. rewrite Hq.
  erewrite (drain_call_run d _
              {| cb_id := nextCallbackID s; cb_args := [DomEvent e] |}
              [] (event_wrapper fn));
    cbn [goroutines pendingCallbacks callbacksMu callbacks trace cb_id cb_args].
  - split.
    + by eapply lookup_insert_here; rewrite list_lookup_insert_ne.
    + rewrite uint32_small by done.
      unfold effects, has_flag, PreventDefault, StopPropagation,
        StopImmediatePropagation.
      rewrite !has_flag_bit by lia. by rewrite <- !app_assoc.
  - by rewrite list_lookup_insert_ne.
  - done.
  - done.
  - rewrite uint32_small by done. apply lookup_insert_eq.
Qed.

(** As [second_register], with an event callback as the second one. *)
Definition second_register_event : State :=
  run (repeat (Sched 0) 8 ++ [HostCall (makeCallbackHelper 9) []; Sched 1;
       Sched 1; Sched 1; Sched 1; Sched 1; Sched 1])
      (init [NewCallback (fun _ => Return)
                         (fun _ => NewEventCallback 6 (fun _ => Return)
                                                      (fun _ => Return))]).

Lemma event_register_invoke_dispatch_witness :
  goroutines second_register_event !! 1%nat = Some (CallbackLoop AtShift)
  /\ pendingCallbacks second_register_event = []
  /\ exists c,
       trace (run_solo 1 5
                (js_state (js_call (enqueueFn c) [DomEvent 3]
                                   (run_solo 0 6 second_register_event))))
       = trace second_register_event
         ++ [EvLock 0; EvRegister (id c); EvUnlock 0]
         ++ effects 6 3
         ++ [EvPush {| cb_id := id c; cb_args := [DomEvent 3] |};
             EvShift {| cb_id := id c; cb_args := [DomEvent 3] |};
             EvLock 1; EvUnlock 1; EvCall (id c) [DomEvent 3]].
Proof.
  assert (H1 : goroutines second_register_event !! 0%nat
               = Some (Code (NewEventCallback 6 (fun _ => Return)
                                              (fun _ => Return))))
    by (vm_compute; reflexivity).
  assert (H2 : goroutines second_register_event !! 1%nat
               = Some (CallbackLoop AtShift)) by (vm_compute; reflexivity).
  assert (H3 : callbacksMu second_register_event = None)
    by (vm_compute; reflexivity).
  assert (H4 : callbackLoopOnce second_register_event = OnceDone)
    by (vm_compute; reflexivity).
  assert (H5 : pendingCallbacks second_register_event = [])
    by (vm_compute; reflexivity).
  assert (H6 : 0 <= nextCallbackID second_register_event < 2 ^ 32)
    by (vm_compute; split; [discriminate|reflexivity]).
  destruct (event_register_invoke_dispatch 0 1 second_register_event 6
              (fun _ => Return) (fun _ => Return) 3 H1 H2 H3 H4 H5 H6)
    as (c & _ & _ & Ht).
  split; [exact H2|]. split; [exact H5|]. exists c. exact Ht.
Defined.

(** Whenever no registration is under way (the mutex is free), the
    counter is one more than the number of handles given out, modulo
    2^32: it never skips a value and never steps back; and it is a
    [uint32] value. *)
Theorem counter_tracks_registrations s :
  reachable s ->
  callbacksMu s = None ->
  nextCallbackID s
  = uint32 (1 + Z.of_nat (length (registered (trace s))))
  /\ 0 <= nextCallbackID s < 2 ^ 32.
Proof.
  intros Hr Hmu. destruct (reachable_inv _ Hr) as [G _].
  pose proof (inv_mu_free _ G Hmu) as Hn. unfold next_ok in Hn.
  rewrite Z.add_0_r in Hn. split; [done|].
  rewrite Hn. unfold uint32. apply Z.mod_pos_bound. done.
Qed.

Lemma demo_awake_reachable : reachable demo_awake.
Proof.
  exists [demo_main], (repeat (Sched 0) 11 ++ [Sched 1]).
  split; [|reflexivity].
  constructor; [|constructor].
  apply uc_new; intros; repeat constructor.
Defined.

Lemma counter_tracks_registrations_witness :
  reachable demo_awake
  /\ callbacksMu demo_awake = None
  /\ nextCallbackID demo_awake
     = uint32 (1 + Z.of_nat (length (registered (trace demo_awake)))).
Proof.
  assert (H : callbacksMu demo_awake = None) by (vm_compute; reflexivity).
  split; [exact demo_awake_reachable|]. split; [exact H|].
  exact (proj1 (counter_tracks_registrations demo_awake demo_awake_reachable H)).
Defined.

(** In every interleaving, a goroutine that is about to read or write
    the table or the counter holds the mutex; so no two goroutines are at
    such a statement at the same time. *)
Theorem registry_access_under_lock s :
  reachable s ->
  (forall g gr, goroutines s !! g = Some gr -> at_registry gr ->
                callbacksMu s = Some g)
  /\ (forall g g' gr gr',
        goroutines s !! g = Some gr -> goroutines s !! g' = Some gr' ->
        at_registry gr -> at_registry gr' -> g = g').
Proof.
  intros Hr. destruct (reachable_inv _ Hr) as [G Hgood].
  assert (H : forall g gr, goroutines s !! g = Some gr -> at_registry gr ->
                callbacksMu s = Some g).
  { intros g gr Hl Ht. specialize (Hgood _ _ Hl).
    destruct gr as [p|pc]; simpl in Hgood, Ht.
    - destruct Hgood as (pc & Hat & Hok). by eapply at_pc_registry.
    - destruct pc; simpl in Hgood; destruct_and?; try done.
      match goal with H : ex _ |- _ => destruct H as (pc & Hat & Hok) end.
      by eapply at_pc_registry. }
  split; [done|].
  intros g g' gr gr' Hl Hl' Ht Ht'.
  pose proof (H _ _ Hl Ht) as E. pose proof (H _ _ Hl' Ht') as E'. congruence.
Qed.

(** Two goroutines register at the same time; goroutine 0 is between
    reading the counter and incrementing it. *)
Definition racing_state : State :=
  run (repeat (Sched 0) 5 ++ repeat (Sched 1) 3)
      (init [NewCallback (fun _ => Return) (fun _ => Return);
             NewCallback (fun _ => Return) (fun _ => Return)]).

Lemma racing_reachable : reachable racing_state.
Proof.
  exists [NewCallback (fun _ => Return) (fun _ => Return);
          NewCallback (fun _ => Return) (fun _ => Return)],
         (repeat (Sched 0) 5 ++ repeat (Sched 1) 3).
  split; [|reflexivity].
  repeat constructor.
Defined.

Lemma registry_access_under_lock_witness :
  reachable racing_state
  /\ forall g gr, goroutines racing_state !! g = Some gr -> at_registry gr ->
                  callbacksMu racing_state = Some g.
Proof.
  split; [exact racing_reachable|].
  exact (proj1 (registry_access_under_lock racing_state racing_reachable)).
Defined.

(** Every key of the table is a handle some registration wrote. *)
Definition keys_registered (s : State) : Prop :=
  forall i, is_Some (callbacks s !! i) -> In i (registered (trace s)).

Lemma keys_registered_emit e s :
  keys_registered s -> keys_registered (emit e s).
Proof.
  intros K i Hi. simpl. rewrite registered_app. apply in_or_app. left.
  by apply K.
Qed.

Lemma keys_registered_js f args s :
  keys_registered s -> keys_registered (js_state (js_call f args s)).
Proof.
  intros K i Hi.
  destruct (js_call_effect f args s) as [_ Hc _ _ _ (evs & Ht & _)].
  rewrite Hc in Hi. rewrite Ht, registered_app. apply in_or_app. left.
  by apply K.
Qed.

Lemma keys_registered_exec g p s p' s' :
  exec g p s = Some (p', s') -> keys_registered s -> keys_registered s'.
Proof.
  intros He K.
  destruct p; simpl in He;
    repeat match type of He with
           | context [match ?x with _ => _ end] => destruct x eqn:?
           end;
    try discriminate; injection He as <- <-; try exact K;
    try (by apply keys_registered_emit).
  - intros j Hj. simpl in *. rewrite registered_app. apply in_or_app.
    destruct (decide (j = i)) as [->|Hne].
    + right. simpl. by left.
    + left. apply K. by rewrite lookup_insert_ne in Hj.
  - intros j Hj. simpl in *. apply K.
    destruct (decide (j = i)) as [->|Hne].
    + rewrite lookup_delete_eq in Hj. by destruct Hj.
    + by rewrite lookup_delete_ne in Hj.
  - match goal with H : js_call ?f ?a ?s = _ |- _ =>
      pose proof (keys_registered_js f a s K) as K'; rewrite H in K' end.
    exact K'.
  - match goal with H : js_call ?f ?a ?s = _ |- _ =>
      pose proof (keys_registered_js f a s K) as K'; rewrite H in K' end.
    exact K'.
Qed.

Lemma keys_registered_loop g pc s pc' s' :
  callbackLoop g pc s = Some (pc', s') ->
  keys_registered s -> keys_registered s'.
Proof.
  intros He K.
  destruct pc; simpl in He;
    repeat match type of He with
           | context [match ?x with _ => _ end] => destruct x eqn:?
           end;
    try discriminate; injection He as <- <-; try exact K;
    try (by apply keys_registered_emit);
    try (by eapply keys_registered_exec).
Qed.

Lemma keys_registered_act s a :
  keys_registered s -> keys_registered (act s a).
Proof.
  intros K. destruct a as [g|f args]; simpl;
    [|by apply keys_registered_js].
  unfold step. destruct (goroutines s !! g) as [[p|pc]|]; [| |done].
  - destruct (exec g p s) as [[p' s']|] eqn:He; [|done].
    apply (keys_registered_exec _ _ _ _ _ He) in K. exact K.
  - destruct (callbackLoop g pc s) as [[pc' s']|] eqn:He; [|done].
    apply (keys_registered_loop _ _ _ _ _ He) in K. exact K.
Qed.

Lemma keys_registered_run schedule s :
  keys_registered s -> keys_registered (run schedule s).
Proof.
  revert s. induction schedule as [|a l IH]; intros s K; [done|].
  simpl. apply IH. by apply keys_registered_act.
Qed.

(** Whatever the goroutines of the program are and however they are
    scheduled, every function in the table sits under a handle that a
    registration wrote: the dispatcher's lookup can only find functions
    that went through [callbacks[id] = fn] in [NewCallback], and neither
    [Close] nor the dispatcher nor the JavaScript helpers add an entry. *)
Theorem table_keys_registered mains schedule i fn :
  callbacks (run schedule (init mains)) !! i = Some fn ->
  In i (registered (trace (run schedule (init mains)))).
Proof.
  intros H. apply (keys_registered_run schedule (init mains)); [|by eexists].
  intros j [f Hj]. simpl in Hj. by rewrite lookup_empty in Hj.
Qed.

Lemma table_keys_registered_witness :
  callbacks (run (repeat (Sched 0) 11 ++ [Sched 1]) (init [demo_main])) !! 1
  = Some (fun _ => Return)
  /\ In 1 (registered (trace (run (repeat (Sched 0) 11 ++ [Sched 1])
                                   (init [demo_main])))).
Proof.
  assert (H : callbacks (run (repeat (Sched 0) 11 ++ [Sched 1])
                             (init [demo_main])) !! 1
              = Some (fun _ => Return)) by (vm_compute; reflexivity).
  split; [exact H|].
  exact (table_keys_registered [demo_main]
           (repeat (Sched 0) 11 ++ [Sched 1]) 1 (fun _ => Return) H).
Defined.

(** No wake-up is lost: in every interleaving, when the dispatcher is in
    [sleepUntilCallback] and the queue holds a record, the wake signal is
    set, so the dispatcher's next statement enters the inner loop.  The
    helper pushes and then signals in one JavaScript call, and the
    dispatcher leaves the inner loop only on an empty queue. *)
Theorem sleeping_dispatcher_is_signalled s g :
  reachable s ->
  goroutines s !! g = Some (CallbackLoop AtSleep) ->
  pendingCallbacks s <> [] ->
  callbackPromise s = true
  /\ goroutines (step g s) !! g = Some (CallbackLoop AtShift)
  /\ pendingCallbacks (step g s) = pendingCallbacks s.
Proof.
  intros Hr Hg Hne.
  pose proof (Inv_dispatchers_le _ (reachable_inv _ Hr)) as Hle.
  destruct Hr as (mains & schedule & _ & ->).
  assert (W : wake_pending (run schedule (init mains))).
  { apply wake_pending_run. intros H. by destruct H. }
  assert (Ht : callbackPromise (run schedule (init mains)) = true).
  { destruct (W Hne) as [Ht | (g0 & pc & Hg0 & Hpc)]; [done|].
    destruct (decide (g0 = g)) as [-> | Hd]; [congruence|].
    pose proof (dispatchers_lookup2 _ _ _ _ _ Hd Hg0 Hg). lia. }
  split; [done|].
  unfold step. rewrite Hg. simpl. rewrite Ht. simpl.
  split; [|done].
  apply list_lookup_insert_eq. by apply lookup_lt_Some in Hg.
Qed.

(** The host has called the callback twice before the dispatcher ran. *)
Definition asleep_state : State :=
  run (repeat (Sched 0) 10) (init [demo_main]).

Lemma asleep_reachable : reachable asleep_state.
Proof.
  exists [demo_main], (repeat (Sched 0) 10).
  split; [|reflexivity].
  constructor; [|constructor].
  apply uc_new; intros; repeat constructor.
Defined.

Lemma sleeping_dispatcher_is_signalled_witness :
  reachable asleep_state
  /\ goroutines asleep_state !! 1%nat = Some (CallbackLoop AtSleep)
  /\ pendingCallbacks asleep_state <> []
  /\ callbackPromise asleep_state = true
  /\ goroutines (step 1 asleep_state) !! 1%nat = Some (CallbackLoop AtShift).
Proof.
  assert (H1 : goroutines asleep_state !! 1%nat = Some (CallbackLoop AtSleep))
    by (vm_compute; reflexivity).
  assert (H2 : pendingCallbacks asleep_state <> [])
    by (vm_compute; discriminate).
  destruct (sleeping_dispatcher_is_signalled asleep_state 1
              asleep_reachable H1 H2) as (Ht & Hs & _).
  split; [exact asleep_reachable|]. split; [exact H1|]. split; [exact H2|].
  split; [exact Ht | exact Hs].
Defined.

(** The inner loop on a record whose handle is in the table, up to the
    point where the function has been read and the mutex released. *)
Lemma drain_lookup_run g s cb rest (f : GoFunc) :
  goroutines s !! g = Some (CallbackLoop AtShift) ->
  pendingCallbacks s = cb :: rest ->
  callbacksMu s = None ->
  callbacks s !! uint32 (cb_id cb) = Some f ->
  run_solo g 4 s
  = {| callbacksMu := None;
       callbacks := callbacks s;
       nextCallbackID := nextCallbackID s;
       callbackLoopOnce := callbackLoopOnce s;
       pendingCallbacks := rest;
       callbackPromise := callbackPromise s;
       goroutines :=
         <[g := CallbackLoop (AtCall (uint32 (cb_id cb)) f (cb_args cb))]>
           (goroutines s);
       trace := trace s ++ [EvShift cb; EvLock g; EvUnlock g] |}.
Proof.
  intros Hl Hq Hmu Hcb.
  do 4 solo_step. rewrite copy_args_eq. solo_done.
Qed.

(** [Close] against the dispatch of a record for the same handle.  The
    dispatcher reads the function out of the table under the mutex and
    calls it after the unlock, so the order of the two critical sections
    decides: when the dispatcher's lookup comes first, the function is
    still called although its entry is gone by then; when [Close] comes
    first, the record is dropped with the diagnostic.  In both orders the
    entry is gone and the record is off the queue at the end. *)
Theorem close_races_with_dispatch g d s c ret cb rest (f : GoFunc) :
  goroutines s !! g = Some (Code (Close c ret)) ->
  goroutines s !! d = Some (CallbackLoop AtShift) ->
  pendingCallbacks s = cb :: rest ->
  callbacksMu s = None ->
  uint32 (cb_id cb) = id c ->
  callbacks s !! id c = Some f ->
  let lookup_first := step d (run_solo g 3 (run_solo d 4 s)) in
  let close_first := run_solo d 5 (run_solo g 3 s) in
  (outcomes (trace lookup_first)
   = outcomes (trace s) ++ [Delivered (id c) (cb_args cb)]
   /\ goroutines lookup_first !! d
      = Some (CallbackLoop (InCall (f (cb_args cb))))
   /\ callbacks lookup_first !! id c = None
   /\ pendingCallbacks lookup_first = rest)
  /\ (outcomes (trace close_first) = outcomes (trace s) ++ [Dropped]
      /\ goroutines close_first !! d = Some (CallbackLoop AtShift)
      /\ callbacks close_first !! id c = None
      /\ pendingCallbacks close_first = rest).
Proof.
  intros Hg Hd Hq Hmu Hid Hf. cbv zeta.
  assert (Hne : d <> g) by (intros ->; congruence).
  split.
  - rewrite (drain_lookup_run d s cb rest f Hd Hq Hmu) by (by rewrite Hid).
    erewrite (Close_run g _ c ret);
      [|cbn [goroutines]; by rewrite list_lookup_insert_ne|done].
    cbn [callbacks nextCallbackID callbackLoopOnce pendingCallbacks
         callbackPromise goroutines trace].
    erewrite step_Loop;
      [|cbn [goroutines]; rewrite list_lookup_insert_ne by done;
        by eapply lookup_insert_here
       |cbn [callbackLoop]; reflexivity].
    norm_state. split_and!.
    + rewrite Hid, !outcomes_app. cbn. by rewrite !app_nil_r.
    + eapply lookup_insert_here.
      rewrite list_lookup_insert_ne by done. by eapply lookup_insert_here.
    + apply lookup_delete_eq.
    + done.
  - rewrite (Close_run g s c ret Hg Hmu).
    erewrite (drain_closed_run d _ cb rest);
      cbn [callbacksMu callbacks pendingCallbacks goroutines trace].
    + split_and!.
      * rewrite !outcomes_app. cbn. by rewrite !app_nil_r.
      * eapply lookup_insert_here. by rewrite list_lookup_insert_ne.
      * apply lookup_delete_eq.
      * done.
    + by rewrite list_lookup_insert_ne.
    + done.
    + done.
    + rewrite Hid. apply lookup_delete_eq.
Qed.

(** The main goroutine registers a callback, the host calls it, the
    dispatcher wakes up, and the main goroutine is about to close it. *)
Definition race_main : Prog :=
  NewCallback (fun _ => Return) (fun c =>
  Invoke (enqueueFn c) [Number 7] (Close c Return)).

Definition race_state : State :=
  run (repeat (Sched 0) 9 ++ [Sched 1]) (init [race_main]).

Lemma close_races_with_dispatch_witness :
  goroutines race_state !! 1%nat = Some (CallbackLoop AtShift)
  /\ callbacksMu race_state = None
  /\ outcomes (trace (step 1 (run_solo 0 3 (run_solo 1 4 race_state))))
     = outcomes (trace race_state) ++ [Delivered 1 [Number 7]]
  /\ outcomes (trace (run_solo 1 5 (run_solo 0 3 race_state)))
     = outcomes (trace race_state) ++ [Dropped].
Proof.
  assert (H1 : goroutines race_state !! 0%nat
               = Some (Code (Close {| id := 1;
                                      enqueueFn := makeCallbackHelper 1 |}
                                   Return)))
    by (vm_compute; reflexivity).
  assert (H2 : goroutines race_state !! 1%nat = Some (CallbackLoop AtShift))
    by (vm_compute; reflexivity).
  assert (H3 : pendingCallbacks race_state
               = {| cb_id := 1; cb_args := [Number 7] |} :: [])
    by (vm_compute; reflexivity).
  assert (H4 : callbacksMu race_state = None) by (vm_compute; reflexivity).
  assert (H5 : uint32 (cb_id {| cb_id := 1; cb_args := [Number 7] |})
               = id {| id := 1; enqueueFn := makeCallbackHelper 1 |})
    by reflexivity.
  assert (H6 : callbacks race_state
                 !! id {| id := 1; enqueueFn := makeCallbackHelper 1 |}
               = Some (fun _ => Return)) by (vm_compute; reflexivity).
  destruct (close_races_with_dispatch 0 1 race_state _ _ _ _ _
              H1 H2 H3 H4 H5 H6) as ((Ha & _) & (Hb & _)).
  exact (conj H2 (conj H4 (conj Ha Hb))).
Defined.

(** The flags value a caller writes for a choice of the three constants,
    [PreventDefault | StopPropagation | StopImmediatePropagation] with
    the unwanted ones left out. *)
Definition flag_union (a b c : bool) : EventCallbackFlag :=
  Z.lor (if a then PreventDefault else 0)
        (Z.lor (if b then StopPropagation else 0)
               (if c then StopImmediatePropagation else 0)).

(** The three constants are three different bits, and the tests
    [flags&X != 0] read them back: an event callback made with the union
    of some of the constants gets the JavaScript helper with exactly
    those switches on, around the trampoline of the one registration it
    makes; bits above the third change nothing. *)
Theorem flag_constants_select a b c hi fn ret :
  NewEventCallback (Z.lor (flag_union a b c) (Z.shiftl hi 3)) fn ret
  = NewCallback (event_wrapper fn)
      (fun c0 => ret {| id := id c0;
                        enqueueFn := makeEventCallbackHelper a b c
                                       (enqueueFn c0) |}).
Proof.
  assert (H : forall k, 0 <= k < 3 ->
            has_flag (Z.lor (flag_union a b c) (Z.shiftl hi 3)) (Z.shiftl 1 k)
            = Z.testbit (flag_union a b c) k).
  { intros k Hk. unfold has_flag. rewrite has_flag_bit by lia.
    rewrite Z.lor_spec, Z.shiftl_spec_low by lia. apply orb_false_r. }
  unfold NewEventCallback, PreventDefault, StopPropagation,
    StopImmediatePropagation.
  rewrite !H by lia.
  by destruct a, b, c.
Qed.
